(** * serializer: the byte-buffer adapter of [src/serialize.c]

    A shallow embedding of the growable write buffer, the bounded read
    cursor and the two entry points [pack_] and [unpack_], together with
    the properties stated for them.

    Conventions of the embedding.
    - [R_xlen_t] is [ptrdiff_t] on the 64-bit builds of R; its values are
      integers of [Z] and every sum computed in that type goes through
      [xlen_wrap].
    - A byte of storage is a [cell]: [None] is a byte that [malloc] or
      [realloc] handed out and nothing wrote yet, [Some b] a written byte.
    - [error()] of R never returns (it is a long jump); a call that reaches
      it ends in [Raise], carrying the memory as it was left.
    - The two [while] loops of the write callbacks run on fuel; undefined
      behaviour of C (a copy outside a block, a read of a byte never
      written, a read of a freed block, a conversion out of range) ends
      in [Fault]. *)

From Stdlib Require Import ZArith Lia Strings.Byte.
From stdpp Require Import base option list.

Local Open Scope Z_scope.

(** ** Machine integers and bytes *)

(** [R_XLEN_T_MAX] of [Rinternals.h] on builds with long vectors: 2^52. *)
Definition R_XLEN_T_MAX : Z := 4503599627370496.

Definition INT_MAX : Z := 2147483647.

(** Two's complement wrap-around of the signed 64-bit type [R_xlen_t]. *)
Definition xlen_wrap (z : Z) : Z := (z + 2 ^ 63) mod 2 ^ 64 - 2 ^ 63.

(** Conversion of an [R_xlen_t] or an [int] to [size_t]. *)
Definition size_of_int (z : Z) : Z := z mod 2 ^ 64.

(** [(double)] of an [R_xlen_t]: the nearest value with a 53-bit
    significand, ties to the even significand. *)
Definition double_of_xlen (z : Z) : Z :=
  let a := Z.abs z in
  let e := Z.log2 a - 52 in
  if e <=? 0 then z
  else
    let q := Z.shiftr a e in
    let r := Z.land a (Z.ones e) in
    let half := Z.shiftl 1 (e - 1) in
    let q' := if (half <? r) || ((r =? half) && Z.odd q) then q + 1 else q in
    Z.sgn z * Z.shiftl q' e.

(** [(R_xlen_t)] of a double holding an integer; outside the range of the
    type the conversion is undefined. *)
Definition xlen_of_double (d : Z) : option Z :=
  if (- 2 ^ 63 <=? d) && (d <? 2 ^ 63) then Some d else None.

Definition byte_of_Z (z : Z) : byte :=
  match Byte.of_N (Z.to_N z) with
  | Some b => b
  | None => x00
  end.

(** [(unsigned char) c] for an [int c]. *)
Definition uchar_of_int (c : Z) : byte := byte_of_Z (c mod 256).

(** An [unsigned char] promoted to [int]. *)
Definition int_of_uchar (b : byte) : Z := Z.of_N (Byte.to_N b).

Abbreviation cell := (option byte).

(** ** Outcomes of a call *)

(** The error classes of the specification; the code raises each one
    through [error()] with a message of its own. *)
Inductive error : Type :=
  | AllocationFailure
  | CapacityExceeded
  | BufferUnderrun
  | InvalidInput
  | EngineEncodingError
  | EngineDecodingError.

Inductive res (St A : Type) : Type :=
  | Ok (a : A) (s : St)
  | Raise (e : error) (s : St)
  | Fault
  | OutOfFuel.

Arguments Ok {St A} a s.
Arguments Raise {St A} e s.
Arguments Fault {St A}.
Arguments OutOfFuel {St A}.

Definition M (St A : Type) : Type := St -> res St A.

Definition ret {St A} (a : A) : M St A := fun s => Ok a s.

Definition bind {St A B} (m : M St A) (k : A -> M St B) : M St B :=
  fun s =>
    match m s with
    | Ok a s' => k a s'
    | Raise e s' => Raise e s'
    | Fault => Fault
    | OutOfFuel => OutOfFuel
    end.

Definition raise {St A} (e : error) : M St A := fun s => Raise e s.

Definition fault {St A} : M St A := fun _ => Fault.

Definition get {St} : M St St := fun s => Ok s s.

Definition put {St} (s : St) : M St unit := fun _ => Ok tt s.

Declare Scope monad_scope.
Delimit Scope monad_scope with monad.

Notation "x <- m ;; k" := (bind m (fun x => k))
  (at level 100, m at next level, right associativity) : monad_scope.
Notation "m ;; k" := (bind m (fun _ => k))
  (at level 100, right associativity) : monad_scope.

Local Open Scope monad_scope.

(** ** The allocator *)

(** What the C library's allocator contributes: how many blocks obtained
    from it are not yet freed, and whether each coming request will be
    served ([oracle]; once the list is used up every request is). *)
Record allocator : Type := mkallocator {
  live : nat;
  oracle : list bool
}.

(** Whether a request of [size] bytes is served. No implementation serves
    more than [PTRDIFF_MAX] bytes. *)
Definition served (size : Z) (h : allocator) : bool :=
  (size <? 2 ^ 63) && hd true (oracle h).

(** [malloc(size)]: [None] is the null pointer, otherwise the new block. *)
Definition malloc (size : Z) : M allocator (option (list cell)) :=
  fun h =>
    if served size h
    then Ok (Some (replicate (Z.to_nat size) None))
            (mkallocator (S (live h)) (tl (oracle h)))
    else Ok None (mkallocator (live h) (tl (oracle h))).

(** [realloc(block, size)]: on success the old block is gone and the new
    one starts with the old content, cut or extended to [size] bytes; on
    failure the old block stays as it is. For a size of 0 the C library
    decides; glibc frees the block and returns the null pointer, and that
    is what is modelled. *)
Definition realloc (block : list cell) (size : Z)
  : M allocator (option (list cell)) :=
  fun h =>
    if size =? 0
    then Ok None (mkallocator (pred (live h)) (tl (oracle h)))
    else if served size h
    then Ok (Some (resize (Z.to_nat size) None block))
            (mkallocator (live h) (tl (oracle h)))
    else Ok None (mkallocator (live h) (tl (oracle h))).

(** [free(p)] of a block obtained from the allocator. *)
Definition free : M allocator unit :=
  fun h =>
    match live h with
    | O => Fault
    | S n => Ok tt (mkallocator n (oracle h))
    end.

(** ** The data buffer *)

Record buffer : Type := mkbuffer {
  length : Z;
  pos : Z;
  data : list cell
}.

(** The memory a stream callback works on: the buffer its stream points
    to, and the allocator. *)
Record state : Type := mkstate {
  buf : buffer;
  heap : allocator
}.

Definition set_length (n : Z) (s : state) : state :=
  mkstate (mkbuffer n (pos (buf s)) (data (buf s))) (heap s).

Definition set_pos (n : Z) (s : state) : state :=
  mkstate (mkbuffer (length (buf s)) n (data (buf s))) (heap s).

Definition set_data (d : list cell) (s : state) : state :=
  mkstate (mkbuffer (length (buf s)) (pos (buf s)) d) (heap s).

(** Runs an allocator call from a callback. *)
Definition on_heap {A} (m : M allocator A) : M state A :=
  fun s =>
    match m (heap s) with
    | Ok a h => Ok a (mkstate (buf s) h)
    | Raise e h => Raise e (mkstate (buf s) h)
    | Fault => Fault
    | OutOfFuel => OutOfFuel
    end.

Definition sizeof_buffer : Z := 24.

(** [init_buffer]. *)
Definition init_buffer (nbytes : Z) : M allocator buffer :=
  b <- malloc sizeof_buffer ;;
  match b with
  | None => raise AllocationFailure
  | Some _ =>
      d <- malloc (size_of_int nbytes) ;;
      match d with
      | None => raise AllocationFailure
      | Some block => ret (mkbuffer nbytes 0 block)
      end
  end.

(** [expand_buffer]: the length is doubled in [double] arithmetic and
    stored first, then checked, then the block is reallocated. When
    [realloc] returns the null pointer both blocks are freed, and the
    call of [error()] that follows reads [buf->length] from the
    structure just freed: that path is undefined. *)
Definition expand_buffer : M state unit :=
  s <- get ;;
  let factor := 2 in
  match xlen_of_double (factor * double_of_xlen (length (buf s))) with
  | None => fault
  | Some len =>
      put (set_length len s) ;;
      if len >? R_XLEN_T_MAX then raise CapacityExceeded
      else
        new_data <- on_heap (realloc (data (buf s)) (size_of_int len)) ;;
        match new_data with
        | None =>
            on_heap free ;;
            on_heap free ;;
            fault
        | Some d =>
            s' <- get ;;
            put (set_data d s')
        end
  end.

(** [while (cond) expand_buffer(buf);] *)
Fixpoint expand_while (fuel : nat) (cond : buffer -> bool) : M state unit :=
  fun s =>
    if cond (buf s) then
      match fuel with
      | O => OutOfFuel
      | S fuel' => (expand_buffer ;; expand_while fuel' cond) s
      end
    else Ok tt s.

(** [memcpy(dst + off, src, n)] seen from the destination block: it must
    hold [n] bytes from [off] on and the source must hold [n] bytes. *)
Definition memcpy_to (dst : list cell) (off : Z) (src : list cell) (n : Z)
  : option (list cell) :=
  if (0 <=? off) && (0 <=? n) && (off + n <=? Z.of_nat (List.length dst))
     && (n <=? Z.of_nat (List.length src))
  then Some (take (Z.to_nat off) dst ++ take (Z.to_nat n) src
             ++ drop (Z.to_nat (off + n)) dst)
  else None.

(** [memcpy(dst, src + off, n)] seen from the source block: the bytes
    that arrive in [dst]. *)
Definition memcpy_from (src : list cell) (off : Z) (n : Z)
  : option (list cell) :=
  if (0 <=? off) && (0 <=? n) && (off + n <=? Z.of_nat (List.length src))
  then Some (take (Z.to_nat n) (drop (Z.to_nat off) src))
  else None.

(** The store of one cell followed by the move of the cursor. *)
Definition store_at (i : nat) (x : cell) (q : Z) (s : state) : state :=
  set_pos q (set_data (<[i := x]> (data (buf s))) s).

(** [buf->data[buf->pos++] = (unsigned char)c;] *)
Definition store_byte (c : Z) : M state unit :=
  s <- get ;;
  let p := pos (buf s) in
  if (0 <=? p) && (p <? Z.of_nat (List.length (data (buf s)))) then
    put (store_at (Z.to_nat p) (Some (uchar_of_int c)) (xlen_wrap (p + 1)) s)
  else fault.

(** [memcpy(buf->data + buf->pos, src, length); buf->pos += length;]
    where [src] is the memory behind the source pointer. *)
Definition store_bytes (src : list byte) (length_ : Z) : M state unit :=
  s <- get ;;
  match memcpy_to (data (buf s)) (pos (buf s)) (Some <$> src)
          (size_of_int length_) with
  | None => fault
  | Some d =>
      put (set_pos (xlen_wrap (pos (buf s) + length_)) (set_data d s))
  end.

(** [write_byte]. *)
Definition write_byte (fuel : nat) (c : Z) : M state unit :=
  expand_while fuel (fun b => pos b >=? length b) ;;
  store_byte c.

(** [write_bytes]. *)
Definition write_bytes (fuel : nat) (src : list byte) (length_ : Z)
  : M state unit :=
  expand_while fuel (fun b => xlen_wrap (pos b + length_) >? length b) ;;
  store_bytes src length_.

(** [read_byte]. *)
Definition read_byte : M state Z :=
  s <- get ;;
  if pos (buf s) >=? length (buf s) then raise BufferUnderrun
  else
    let p := pos (buf s) in
    if 0 <=? p then
      match data (buf s) !! Z.to_nat p with
      | Some (Some b) =>
          put (set_pos (xlen_wrap (p + 1)) s) ;;
          ret (int_of_uchar b)
      | _ => fault
      end
    else fault.

(** [read_bytes]: the result is what the copy leaves in [dst]. *)
Definition read_bytes (length_ : Z) : M state (list cell) :=
  s <- get ;;
  if xlen_wrap (pos (buf s) + length_) >? length (buf s)
  then raise BufferUnderrun
  else
    match memcpy_from (data (buf s)) (pos (buf s))
            (size_of_int length_) with
    | None => fault
    | Some dst =>
        put (set_pos (xlen_wrap (pos (buf s) + length_)) s) ;;
        ret dst
    end.

(** ** The serialization engine and the two entry points *)

(** What a run of the engine's encoder does with its output stream: the
    calls it makes on [OutChar] and [OutBytes], ending in a return or in
    an error of its own. *)
Inductive encoder : Type :=
  | EDone
  | EError
  | OutChar (c : Z) (k : encoder)
  | OutBytes (src : list byte) (length_ : Z) (k : encoder).

(** What a run of the engine's decoder does with its input stream; each
    read hands its result to the rest of the run. *)
Inductive decoder (A : Type) : Type :=
  | DDone (a : A)
  | DError
  | InChar (k : Z -> decoder A)
  | InBytes (length_ : Z) (k : list byte -> decoder A).

Arguments DDone {A} a.
Arguments DError {A}.
Arguments InChar {A} k.
Arguments InBytes {A} length_ k.

(** The bytes of a block, when all of them were written. *)
Definition written (cells : list cell) : option (list byte) := mapM id cells.

(** The encoder run against [write_byte] and [write_bytes]. *)
Fixpoint run_encoder (fuel : nat) (e : encoder) : M state unit :=
  match e with
  | EDone => ret tt
  | EError => raise EngineEncodingError
  | OutChar c k => write_byte fuel c ;; run_encoder fuel k
  | OutBytes src n k => write_bytes fuel src n ;; run_encoder fuel k
  end.

(** The decoder run against [read_byte] and [read_bytes]. *)
Fixpoint run_decoder {A} (d : decoder A) : M state A :=
  match d with
  | DDone a => ret a
  | DError => raise EngineDecodingError
  | InChar k => c <- read_byte ;; run_decoder (k c)
  | InBytes n k =>
      dst <- read_bytes n ;;
      match written dst with
      | Some bytes => run_decoder (k bytes)
      | None => fault
      end
  end.

(** Runs callbacks on a buffer held in a local variable of the caller. *)
Definition with_buffer {A} (b : buffer) (m : M state A)
  : M allocator (A * buffer) :=
  fun h =>
    match m (mkstate b h) with
    | Ok a s => Ok (a, buf s) (heap s)
    | Raise e s => Raise e (heap s)
    | Fault => Fault
    | OutOfFuel => OutOfFuel
    end.

(** Modelled from the spec: the counting sink keeps a running total and
    no byte storage; [append_byte] adds one, [append_bytes] adds [n]. *)
Record counting_sink : Type := mkcounting_sink {
  total : Z
}.

(** Modelled from the spec: [append_byte] of the counting sink. *)
Definition count_byte (c : Z) : M counting_sink unit :=
  fun k => Ok tt (mkcounting_sink (total k + 1)).

(** Modelled from the spec: [append_bytes] of the counting sink. *)
Definition count_bytes (src : list byte) (length_ : Z)
  : M counting_sink unit :=
  fun k => Ok tt (mkcounting_sink (total k + length_)).

(** Modelled from the spec: the encoder run against the counting
    callbacks, as [measure] drives it. *)
Fixpoint run_counter (e : encoder) : M counting_sink unit :=
  match e with
  | EDone => ret tt
  | EError => raise EngineEncodingError
  | OutChar c k => count_byte c ;; run_counter k
  | OutBytes src n k => count_bytes src n ;; run_counter k
  end.

(** [allocVector(RAWSXP, n)]: a request to the allocator of R. The
    vector it returns belongs to R's collected heap, so it is no block
    of [live]; when the request is not served, or the length is one R
    does not allow, R raises its error. *)
Definition allocVector (n : Z) : M allocator unit :=
  fun h =>
    if (0 <=? n) && (n <=? R_XLEN_T_MAX) && hd true (oracle h)
    then Ok tt (mkallocator (live h) (tl (oracle h)))
    else Raise AllocationFailure (mkallocator (live h) (tl (oracle h))).

Section Engine.

(** The R objects that are not raw vectors. *)
Context {robject : Type}.

Inductive SEXP : Type :=
  | RAWSXP (bytes : list byte)
  | OTHERSXP (o : robject).

(** [R_Serialize] and [R_Unserialize] of the R API, at the format and
    version that [pack_] and [unpack_] bind. *)
Variable R_Serialize : SEXP -> encoder.
Variable R_Unserialize : decoder SEXP.

(** [pack_]. *)
Definition pack_ (fuel : nat) (robj : SEXP) : M allocator SEXP :=
  b <- init_buffer 16384 ;;
  r <- with_buffer b (run_encoder fuel (R_Serialize robj)) ;;
  let b := snd r in
  allocVector (pos b) ;;
  match memcpy_from (data b) 0 (size_of_int (pos b)) with
  | None => fault
  | Some cells =>
      match written cells with
      | None => fault
      | Some res_ =>
          free ;;
          free ;;
          ret (RAWSXP res_)
      end
  end.

(** [unpack_]. *)
Definition unpack_ (vec_ : SEXP) : M allocator SEXP :=
  match vec_ with
  | OTHERSXP _ => raise InvalidInput
  | RAWSXP vec =>
      let len := Z.of_nat (List.length vec) in
      b <- malloc sizeof_buffer ;;
      match b with
      | None => raise AllocationFailure
      | Some _ =>
          r <- with_buffer (mkbuffer len 0 (Some <$> vec))
                 (run_decoder R_Unserialize) ;;
          free ;;
          ret (fst r)
      end
  end.

(** Modelled from the spec: [calc_serialized_size] and its counting
    callbacks are not in [serialize.c]. The specification's [measure] is
    [pack] backed by the counting sink: the engine is driven through
    [count_byte] and [count_bytes] and only the final total is returned. *)
Definition measure (robj : SEXP) : M allocator Z :=
  fun h =>
    match run_counter (R_Serialize robj) (mkcounting_sink 0) with
    | Ok _ k => Ok (total k) h
    | Raise e _ => Raise e h
    | Fault => Fault
    | OutOfFuel => OutOfFuel
    end.

End Engine.

Arguments SEXP robject : clear implicits.
Arguments RAWSXP {robject} bytes.
Arguments OTHERSXP {robject} o.

(** A toy engine for concrete runs: a raw vector of fewer than 256 bytes
    is encoded as its length followed by its bytes. *)
Module Toy.

Definition serialize (v : SEXP unit) : encoder :=
  match v with
  | RAWSXP bytes =>
      OutChar (Z.of_nat (List.length bytes))
        (OutBytes bytes (Z.of_nat (List.length bytes)) EDone)
  | OTHERSXP _ => EError
  end.

Definition unserialize : decoder (SEXP unit) :=
  InChar (fun n => InBytes n (fun bytes => DDone (RAWSXP bytes))).

Definition fresh : allocator := mkallocator 0 [].

End Toy.

(** ** Invariants and reference semantics *)

(** The data model's invariant: the cursor lies inside the capacity, the
    capacity is one R can index, and the block holds [length] bytes. *)
Definition buffer_inv (b : buffer) : Prop :=
  0 <= pos b <= length b /\
  length b <= R_XLEN_T_MAX /\
  Z.of_nat (List.length (data b)) = length b.

(** A buffer that can grow: the doubling of an empty capacity is empty. *)
Definition growable (b : buffer) : Prop :=
  buffer_inv b /\ 0 < length b.

(** The committed content: the cells below the cursor. *)
Definition committed (b : buffer) : list cell :=
  take (Z.to_nat (pos b)) (data b).

(** The reader that [unpack_] builds over a raw vector. *)
Definition reader_of (vec : list byte) : buffer :=
  mkbuffer (Z.of_nat (List.length vec)) 0 (Some <$> vec).

(** The operations on a buffer, and one step of each. *)
Inductive op : Type :=
  | WriteByte (c : Z)
  | WriteBytes (src : list byte) (length_ : Z)
  | ExpandBuffer
  | ReadByte
  | ReadBytes (length_ : Z).

Definition exec (fuel : nat) (o : op) : M state unit :=
  match o with
  | WriteByte c => write_byte fuel c
  | WriteBytes src n => write_bytes fuel src n
  | ExpandBuffer => expand_buffer
  | ReadByte => read_byte ;; ret tt
  | ReadBytes n => read_bytes n ;; ret tt
  end.

Fixpoint exec_all (fuel : nat) (ops : list op) : M state unit :=
  match ops with
  | [] => ret tt
  | o :: ops' => exec fuel o ;; exec_all fuel ops'
  end.

Definition is_append (o : op) : bool :=
  match o with
  | WriteByte _ | WriteBytes _ _ => true
  | _ => false
  end.

(** The number of bytes an append asks to commit. *)
Definition appended (o : op) : Z :=
  match o with
  | WriteByte _ => 1
  | WriteBytes _ n => n
  | _ => 0
  end.

Definition total_appended (ops : list op) : Z :=
  foldr (fun o acc => appended o + acc) 0 ops.

(** A run of bytes appended one [write_byte] at a time. *)
Fixpoint write_each (fuel : nat) (src : list byte) : M state unit :=
  match src with
  | [] => ret tt
  | b :: src' => write_byte fuel (int_of_uchar b) ;; write_each fuel src'
  end.

(** Two outcomes that a caller cannot tell apart: the same result and
    memory on return, the same error and allocator on a raise. *)
Definition same_outcome {A} (r1 r2 : res state A) : Prop :=
  match r1, r2 with
  | Ok a1 s1, Ok a2 s2 => a1 = a2 /\ s1 = s2
  | Raise e1 s1, Raise e2 s2 => e1 = e2 /\ heap s1 = heap s2
  | Fault, Fault => True
  | OutOfFuel, OutOfFuel => True
  | _, _ => False
  end.

(** The stream an encoder run produces on an ideal, unbounded byte sink;
    [None] when the run ends in an error or passes a length that is
    negative, above [INT_MAX] or beyond its source. *)
Fixpoint emitted (e : encoder) : option (list byte) :=
  match e with
  | EDone => Some []
  | EError => None
  | OutChar c k => cons (uchar_of_int c) <$> emitted k
  | OutBytes src n k =>
      if (0 <=? n) && (n <=? INT_MAX) && (n <=? Z.of_nat (List.length src))
      then app (take (Z.to_nat n) src) <$> emitted k
      else None
  end.

(** The result of a decoder run over an ideal byte source holding
    [bytes]; bytes left over are not an error. *)
Fixpoint consume {A} (d : decoder A) (bytes : list byte) : option A :=
  match d with
  | DDone a => Some a
  | DError => None
  | InChar k =>
      match bytes with
      | [] => None
      | b :: rest => consume (k (int_of_uchar b)) rest
      end
  | InBytes n k =>
      if (0 <=? n) && (n <=? INT_MAX) && (n <=? Z.of_nat (List.length bytes))
      then consume (k (take (Z.to_nat n) bytes)) (drop (Z.to_nat n) bytes)
      else None
  end.

(** The growth rule as the specification words it. *)
Definition spec_growth (capacity required_minimum : Z) : Z :=
  Z.max (capacity * 2) required_minimum.

(** The doublings a capacity has left before it passes [R_XLEN_T_MAX]. *)
Definition doublings_left (b : buffer) : nat :=
  Z.to_nat (53 - Z.log2 (length b)).

(** The buffer after one successful doubling. *)
Definition doubled (s : state) : state :=
  mkstate
    (mkbuffer (2 * length (buf s)) (pos (buf s))
       (data (buf s) ++ replicate (Z.to_nat (length (buf s))) None))
    (mkallocator (live (heap s)) (tl (oracle (heap s)))).

(** [while (need > buf->length) expand_buffer(buf);] for a fixed [need]:
    both write loops are of this shape, as no growth step moves the
    cursor. *)
Definition expand_until (fuel : nat) (need : Z) : M state unit :=
  expand_while fuel (fun b => need >? length b).

(** [s'] is [s] after some growth: the same cursor and allocations, the
    block extended by unwritten cells up to the new capacity. *)
Definition extends (s s' : state) : Prop :=
  pos (buf s') = pos (buf s) /\
  length (buf s) <= length (buf s') /\
  data (buf s') =
    data (buf s)
    ++ replicate (Z.to_nat (length (buf s') - length (buf s))) None /\
  live (heap s') = live (heap s).

Definition res_map {A} (f : state -> state) (r : res state A) : res state A :=
  match r with
  | Ok a s => Ok a (f s)
  | Raise e s => Raise e (f s)
  | Fault => Fault
  | OutOfFuel => OutOfFuel
  end.

(** The values of the C type [int]. *)
Definition is_int (n : Z) : Prop := - 2 ^ 31 <= n <= INT_MAX.

Definition op_typed (o : op) : Prop :=
  match o with
  | WriteBytes _ n | ReadBytes n => is_int n
  | _ => True
  end.

Fixpoint encoder_typed (e : encoder) : Prop :=
  match e with
  | EDone | EError => True
  | OutChar _ k => encoder_typed k
  | OutBytes _ n k => is_int n /\ encoder_typed k
  end.

(** [s'] is [s] after the append of [bytes]: they follow the committed
    content, the cursor moved past them, nothing was released. *)
Definition appends (s : state) (bytes : list byte) (s' : state) : Prop :=
  buffer_inv (buf s') /\
  pos (buf s') = pos (buf s) + Z.of_nat (List.length bytes) /\
  committed (buf s') = committed (buf s) ++ (Some <$> bytes) /\
  length (buf s) <= length (buf s') /\
  live (heap s') = live (heap s).

(** A reader over the bytes [vec]: every cell of its block is written. *)
Definition views (b : buffer) (vec : list byte) : Prop :=
  buffer_inv b /\ data b = Some <$> vec.

(** [s'] has the block, the capacity and the allocator of [s]: at most
    the cursor moved. *)
Definition same_storage (s s' : state) : Prop :=
  data (buf s') = data (buf s) /\
  length (buf s') = length (buf s) /\
  heap s' = heap s.

(** An outcome that left the storage of [s] alone, whether it returned
    or raised. *)
Definition keeps_storage {A} (s : state) (r : res state A) : Prop :=
  match r with
  | Ok _ s' | Raise _ s' => same_storage s s'
  | Fault | OutOfFuel => True
  end.

(** The lengths a decoder run passes are values of the C type [int],
    whatever bytes the reads return. *)
Fixpoint decoder_typed {A} (d : decoder A) : Prop :=
  match d with
  | DDone _ | DError => True
  | InChar k => forall c, 0 <= c <= 255 -> decoder_typed (k c)
  | InBytes n k => is_int n /\ forall bytes, decoder_typed (k bytes)
  end.

(** How a decoder run ends on an ideal byte source. *)
Inductive ideal (A : Type) : Type :=
  | IDone (a : A)
  | IUnderrun
  | IEngineError
  | IUndefined.

Arguments IDone {A} a.
Arguments IUnderrun {A}.
Arguments IEngineError {A}.
Arguments IUndefined {A}.

(** The run of a decoder over an ideal source holding [bytes]: a read
    past the end is an underrun, a negative length is undefined. *)
Fixpoint decode_ideal {A} (d : decoder A) (bytes : list byte) : ideal A :=
  match d with
  | DDone a => IDone a
  | DError => IEngineError
  | InChar k =>
      match bytes with
      | [] => IUnderrun
      | b :: rest => decode_ideal (k (int_of_uchar b)) rest
      end
  | InBytes n k =>
      if n <? 0 then IUndefined
      else if n >? Z.of_nat (List.length bytes) then IUnderrun
      else decode_ideal (k (take (Z.to_nat n) bytes))
             (drop (Z.to_nat n) bytes)
  end.

(** An allocator that serves every request to come. *)
Definition plentiful (h : allocator) : Prop :=
  Forall (fun served_ => served_ = true) (oracle h).

(** A capacity reached from a power of two by doubling, as every capacity
    of the buffer of [pack_] is: 16384 is 2^14. *)
Definition pow2_capacity (b : buffer) : Prop :=
  exists j, 0 <= j <= 52 /\ length b = 2 ^ j.

(** Small concrete buffers for the examples below. *)
Module Example.

(** A write buffer of capacity 4 holding "abc". *)
Definition abc : state :=
  mkstate
    (mkbuffer 4 3 [Some "a"; Some "b"; Some "c"; None]%byte)
    (mkallocator 2 []).

(** A reader over "wxyz" that has consumed one byte. *)
Definition wxyz : state :=
  mkstate
    (mkbuffer 4 1 (Some <$> ["w"; "x"; "y"; "z"]%byte))
    (mkallocator 1 []).

(** An empty write buffer of capacity 4. *)
Definition empty4 : state :=
  mkstate (mkbuffer 4 0 (replicate 4 None)) (mkallocator 2 []).

End Example.

(** ** Arithmetic of the machine types *)

Lemma xlen_wrap_small (z : Z) :
  - 2 ^ 63 <= z < 2 ^ 63 -> xlen_wrap z = z.
Proof.
  intros Hz. unfold xlen_wrap.
  rewrite Z.mod_small by lia. lia.
Qed.

Lemma size_of_int_small (z : Z) :
  0 <= z < 2 ^ 64 -> size_of_int z = z.
Proof. intros Hz. unfold size_of_int. now rewrite Z.mod_small. Qed.

Lemma size_of_int_negative (z : Z) :
  - 2 ^ 63 <= z < 0 -> 2 ^ 63 <= size_of_int z.
Proof.
  intros Hz. unfold size_of_int.
  replace z with (z + 2 ^ 64 + (-1) * 2 ^ 64) by lia.
  rewrite Z.mod_add by lia. rewrite Z.mod_small by lia. lia.
Qed.

Lemma double_of_xlen_small (z : Z) :
  - 2 ^ 53 < z < 2 ^ 53 -> double_of_xlen z = z.
Proof.
  intros Hz. unfold double_of_xlen. cbv zeta.
  destruct (Z.eq_dec z 0) as [-> | Hnz]; [reflexivity |].
  assert (Hlog : Z.log2 (Z.abs z) < 53)
    by (apply Z.log2_lt_pow2; lia).
  destruct (Z.leb_spec (Z.log2 (Z.abs z) - 52) 0); [reflexivity | lia].
Qed.

Lemma int_of_uchar_range (b : byte) : 0 <= int_of_uchar b <= 255.
Proof.
  unfold int_of_uchar. pose proof (Byte.to_N_bounded b). lia.
Qed.

Lemma byte_of_Z_int_of_uchar (b : byte) : byte_of_Z (int_of_uchar b) = b.
Proof.
  unfold byte_of_Z, int_of_uchar.
  rewrite N2Z.id, Byte.of_to_N. reflexivity.
Qed.

Lemma int_of_uchar_byte_of_Z (z : Z) :
  0 <= z < 256 -> int_of_uchar (byte_of_Z z) = z.
Proof.
  intros Hz. unfold byte_of_Z, int_of_uchar.
  destruct (Byte.of_N (Z.to_N z)) as [b |] eqn:E.
  - apply Byte.to_of_N in E. rewrite E. lia.
  - apply Byte.of_N_None_iff in E. lia.
Qed.

Lemma int_of_uchar_of_int (c : Z) : int_of_uchar (uchar_of_int c) = c mod 256.
Proof.
  unfold uchar_of_int. apply int_of_uchar_byte_of_Z.
  apply Z.mod_pos_bound. lia.
Qed.

Lemma uchar_of_int_of_uchar (b : byte) : uchar_of_int (int_of_uchar b) = b.
Proof.
  unfold uchar_of_int.
  rewrite Z.mod_small by (pose proof (int_of_uchar_range b); lia).
  apply byte_of_Z_int_of_uchar.
Qed.

(** ** One growth step *)

Lemma R_XLEN_T_MAX_eq : R_XLEN_T_MAX = 2 ^ 52.
Proof. reflexivity. Qed.

Lemma release_then_fault (s : state) :
  (on_heap free ;; on_heap free ;; @fault state unit) s = Fault.
Proof.
  unfold bind, on_heap, free.
  destruct (live (heap s)) as [| [| n]]; reflexivity.
Qed.

(** On a buffer whose block matches its capacity, [expand_buffer] doubles
    the capacity exactly, raises before any reallocation when the double
    passes [R_XLEN_T_MAX], and is undefined when [realloc] returns the
    null pointer, as it does for an empty capacity. *)
Lemma expand_buffer_spec (s : state) :
  0 <= length (buf s) <= R_XLEN_T_MAX ->
  Z.of_nat (List.length (data (buf s))) = length (buf s) ->
  expand_buffer s =
    if 2 * length (buf s) >? R_XLEN_T_MAX
    then Raise CapacityExceeded (set_length (2 * length (buf s)) s)
    else if (0 <? length (buf s)) && hd true (oracle (heap s))
    then Ok tt (doubled s)
    else Fault.
Proof.
  intros Hlen Hdata. rewrite R_XLEN_T_MAX_eq in Hlen.
  unfold expand_buffer, bind at 1, get.
  rewrite double_of_xlen_small by lia.
  unfold xlen_of_double.
  destruct (Z.leb_spec (- 2 ^ 63) (2 * length (buf s))); [| lia].
  destruct (Z.ltb_spec (2 * length (buf s)) (2 ^ 63)); [| lia].
  cbn [andb]. unfold bind at 1, put.
  destruct (2 * length (buf s) >? R_XLEN_T_MAX) eqn:Hmax; [reflexivity |].
  rewrite R_XLEN_T_MAX_eq in Hmax.
  unfold bind at 1, on_heap at 1, realloc, served.
  rewrite size_of_int_small by lia.
  cbn [set_length heap buf data].
  destruct (Z.ltb_spec 0 (length (buf s))) as [Hpos | Hzero]; cbn [andb].
  - destruct (Z.eqb_spec (2 * length (buf s)) 0); [lia |].
    destruct (Z.ltb_spec (2 * length (buf s)) (2 ^ 63)); [| lia].
    cbn [andb]. destruct (hd true (oracle (heap s))).
    + unfold doubled, set_data, bind, get, put.
      cbn [buf heap data pos length].
      rewrite resize_ge by lia.
      replace (Z.to_nat (2 * length (buf s)) - List.length (data (buf s)))%nat
        with (Z.to_nat (length (buf s))) by lia.
      reflexivity.
    + apply release_then_fault.
  - destruct (Z.eqb_spec (2 * length (buf s)) 0); [| lia].
    apply release_then_fault.
Qed.

(** ** The growth loop *)

Lemma doubled_inv (s : state) :
  buffer_inv (buf s) -> 2 * length (buf s) <= R_XLEN_T_MAX ->
  buffer_inv (buf (doubled s)).
Proof.
  unfold buffer_inv, doubled. cbn [buf length pos data].
  intros (Hpos & Hmax & Hdata) Hdbl.
  rewrite length_app, length_replicate. lia.
Qed.

Lemma doubled_extends (s : state) :
  0 <= length (buf s) -> extends s (doubled s).
Proof.
  intros Hlen. unfold extends, doubled. cbn [buf heap length pos data live].
  repeat split; [lia |].
  do 2 f_equal. lia.
Qed.

Lemma extends_refl (s : state) : extends s s.
Proof.
  unfold extends. repeat split; [lia |].
  rewrite Z.sub_diag. cbn. now rewrite app_nil_r.
Qed.

Lemma extends_trans (s1 s2 s3 : state) :
  extends s1 s2 -> extends s2 s3 -> extends s1 s3.
Proof.
  unfold extends.
  intros (Hp1 & Hl1 & Hd1 & Hh1) (Hp2 & Hl2 & Hd2 & Hh2).
  repeat split; [congruence | lia | | congruence].
  rewrite Hd2, Hd1, <- app_assoc, <- replicate_add.
  do 2 f_equal. lia.
Qed.

Lemma doublings_left_pos (b : buffer) :
  growable b -> (1 <= doublings_left b)%nat.
Proof.
  intros [(Hpos & Hmax & Hdata) Hlen]. unfold doublings_left.
  rewrite R_XLEN_T_MAX_eq in Hmax.
  assert (Z.log2 (length b) < 53) by (apply Z.log2_lt_pow2; lia).
  lia.
Qed.

Lemma doublings_left_doubled (s : state) :
  0 < length (buf s) ->
  doublings_left (buf (doubled s)) = pred (doublings_left (buf s)).
Proof.
  intros Hlen. unfold doublings_left, doubled. cbn [buf length].
  rewrite Z.log2_double by lia. lia.
Qed.

Lemma doubled_growable (s : state) :
  growable (buf s) -> 2 * length (buf s) <= R_XLEN_T_MAX ->
  growable (buf (doubled s)).
Proof.
  intros [Hinv Hlen] Hdbl. split; [now apply doubled_inv |].
  unfold doubled. cbn [buf length]. lia.
Qed.

Lemma expand_while_eq (fuel : nat) (cond : buffer -> bool) (s : state) :
  expand_while fuel cond s =
    if cond (buf s) then
      match fuel with
      | O => OutOfFuel
      | S fuel' => (expand_buffer ;; expand_while fuel' cond) s
      end
    else Ok tt s.
Proof. destruct fuel; reflexivity. Qed.

(** Case analysis on the outcome of [expand_buffer s] under the invariant
    [Hinv] of [s]. *)
Ltac expand_cases s Hinv :=
  rewrite (expand_buffer_spec s)
    by (destruct Hinv as (? & ? & ?); solve [lia | assumption]);
  destruct (2 * length (buf s) >? R_XLEN_T_MAX) eqn:?;
  [| destruct (Z.ltb_spec 0 (length (buf s)));
     [destruct (hd true (oracle (heap s))) eqn:? |]; cbn [andb]].

(** A growth loop that returns leaves the invariant in place, has only
    extended the block, and its condition no longer holds. *)
Lemma expand_while_ok (fuel : nat) (cond : buffer -> bool) (s s' : state) :
  buffer_inv (buf s) ->
  expand_while fuel cond s = Ok tt s' ->
  buffer_inv (buf s') /\ extends s s' /\ cond (buf s') = false.
Proof.
  revert s. induction fuel as [| fuel IH]; intros s Hinv;
    rewrite expand_while_eq; destruct (cond (buf s)) eqn:Hc;
    try discriminate;
    try (intros [= <-]; auto using extends_refl).
  unfold bind. expand_cases s Hinv; try discriminate.
  intros Hloop.
  assert (Hdbl : 2 * length (buf s) <= R_XLEN_T_MAX) by lia.
  destruct (IH _ (doubled_inv s Hinv Hdbl) Hloop) as (Hinv' & Hext & Hc').
  split; [assumption | split; [| assumption]].
  eapply extends_trans; [| exact Hext].
  apply doubled_extends. destruct Hinv as (? & ? & ?); lia.
Qed.

(** Fuel beyond the doublings a capacity has left changes nothing. *)
Lemma expand_while_fuel (f1 f2 : nat) (cond : buffer -> bool) (s : state) :
  growable (buf s) ->
  (doublings_left (buf s) <= f1)%nat ->
  (doublings_left (buf s) <= f2)%nat ->
  expand_while f1 cond s = expand_while f2 cond s.
Proof.
  revert f2 s. induction f1 as [| f1 IH]; intros f2 s Hg H1 H2;
    pose proof (doublings_left_pos _ Hg) as Hpos; [lia |].
  destruct f2 as [| f2]; [lia |].
  rewrite !expand_while_eq. destruct (cond (buf s)); [| reflexivity].
  unfold bind. destruct Hg as [Hinv Hlen].
  expand_cases s Hinv; try reflexivity.
  assert (Hdbl : 2 * length (buf s) <= R_XLEN_T_MAX) by lia.
  apply IH.
  - apply doubled_growable; [split |]; assumption.
  - rewrite doublings_left_doubled by assumption. lia.
  - rewrite doublings_left_doubled by assumption. lia.
Qed.

Lemma doublings_left_le (b : buffer) :
  growable b -> (doublings_left b <= 53)%nat.
Proof.
  intros [_ Hlen]. unfold doublings_left.
  pose proof (Z.log2_nonneg (length b)). lia.
Qed.

(** A loop that grows up to [need2] may first grow up to a smaller
    [need1]. *)
Lemma expand_until_split (f f1 f2 : nat) (need1 need2 : Z) (s : state) :
  growable (buf s) ->
  need1 <= need2 ->
  (doublings_left (buf s) <= f)%nat ->
  (doublings_left (buf s) <= f1)%nat ->
  (doublings_left (buf s) <= f2)%nat ->
  expand_until f need2 s =
    (expand_until f1 need1 ;; expand_until f2 need2) s.
Proof.
  unfold expand_until.
  revert f1 f2 s. induction f as [| f IH]; intros f1 f2 s Hg Hneed H0 H1 H2;
    pose proof (doublings_left_pos _ Hg) as Hpos; [lia |].
  unfold bind at 1.
  rewrite (expand_while_eq f1). cbv beta.
  destruct (Z.gtb_spec need1 (length (buf s))) as [Hgt1 | Hle1].
  - destruct f1 as [| f1]; [lia |].
    rewrite expand_while_eq.
    destruct (Z.gtb_spec need2 (length (buf s))); [| lia].
    unfold bind. pose proof Hg as [Hinv Hlen].
    expand_cases s Hinv; try reflexivity.
    assert (Hdbl : 2 * length (buf s) <= R_XLEN_T_MAX) by lia.
    apply (IH f1 f2 (doubled s)); try assumption.
    + now apply doubled_growable.
    + rewrite doublings_left_doubled by assumption. lia.
    + rewrite doublings_left_doubled by assumption. lia.
    + rewrite doublings_left_doubled by assumption. lia.
  - now apply expand_while_fuel.
Qed.

(** A loop condition matters only on buffers with the cursor of the
    start: no growth step moves the cursor. *)
Lemma expand_while_cond (fuel : nat) (c1 c2 : buffer -> bool) (s : state) :
  buffer_inv (buf s) ->
  (forall b, pos b = pos (buf s) -> c1 b = c2 b) ->
  expand_while fuel c1 s = expand_while fuel c2 s.
Proof.
  revert s. induction fuel as [| fuel IH]; intros s Hinv Hc;
    rewrite !expand_while_eq, (Hc (buf s) eq_refl); [reflexivity |].
  destruct (c2 (buf s)); [| reflexivity].
  unfold bind. expand_cases s Hinv; try reflexivity.
  apply IH; [apply doubled_inv; [assumption | lia] | exact Hc].
Qed.

Lemma store_at_inv (i : nat) (x : cell) (q : Z) (s : state) :
  buffer_inv (buf s) -> 0 <= q <= length (buf s) ->
  buffer_inv (buf (store_at i x q s)).
Proof.
  unfold buffer_inv, store_at. cbn [buf set_pos set_data length pos data].
  rewrite length_insert. tauto.
Qed.

(** A growth step and the store of a cell inside the block commute. *)
Lemma expand_buffer_store_at (i : nat) (x : cell) (q : Z) (s : state) :
  buffer_inv (buf s) ->
  (i < List.length (data (buf s)))%nat ->
  expand_buffer (store_at i x q s) = res_map (store_at i x q) (expand_buffer s).
Proof.
  intros Hinv Hi.
  assert (Hinv' : 0 <= length (buf (store_at i x q s)) <= R_XLEN_T_MAX /\
                  Z.of_nat (List.length (data (buf (store_at i x q s))))
                  = length (buf (store_at i x q s))).
  { unfold store_at. cbn [buf set_pos set_data length pos data].
    rewrite length_insert. destruct Hinv as (? & ? & ?). lia. }
  rewrite (expand_buffer_spec (store_at i x q s)) by tauto.
  rewrite (expand_buffer_spec s)
    by (destruct Hinv as (? & ? & ?); solve [lia | assumption]).
  change (length (buf (store_at i x q s))) with (length (buf s)).
  change (heap (store_at i x q s)) with (heap s).
  destruct (2 * length (buf s) >? R_XLEN_T_MAX); [reflexivity |].
  destruct ((0 <? length (buf s)) && hd true (oracle (heap s)));
    [| reflexivity].
  cbn [res_map]. f_equal. unfold doubled, store_at.
  cbn [buf heap set_pos set_data length pos data].
  now rewrite insert_app_l.
Qed.

Lemma expand_until_store_at
    (fuel : nat) (need : Z) (i : nat) (x : cell) (q : Z) (s : state) :
  buffer_inv (buf s) ->
  (i < List.length (data (buf s)))%nat ->
  expand_until fuel need (store_at i x q s) =
    res_map (store_at i x q) (expand_until fuel need s).
Proof.
  unfold expand_until.
  revert s. induction fuel as [| fuel IH]; intros s Hinv Hi;
    rewrite !expand_while_eq;
    change (length (buf (store_at i x q s))) with (length (buf s));
    destruct (need >? length (buf s)); try reflexivity.
  unfold bind. rewrite expand_buffer_store_at by assumption.
  expand_cases s Hinv; try reflexivity.
  cbn [res_map]. apply IH.
  - apply doubled_inv; [assumption | lia].
  - unfold doubled. cbn [buf data]. rewrite length_app. lia.
Qed.

(** ** The write callbacks *)

Lemma write_byte_eq (fuel : nat) (c : Z) (s : state) :
  buffer_inv (buf s) ->
  write_byte fuel c s =
    (expand_until fuel (pos (buf s) + 1) ;; store_byte c) s.
Proof.
  intros Hinv. unfold write_byte, expand_until, bind.
  rewrite (expand_while_cond fuel _ (fun b => pos (buf s) + 1 >? length b));
    [reflexivity | assumption |].
  intros b ->.
  destruct (Z.geb_spec (pos (buf s)) (length b)),
    (Z.gtb_spec (pos (buf s) + 1) (length b)); (reflexivity || lia).
Qed.

Lemma write_bytes_eq (fuel : nat) (src : list byte) (n : Z) (s : state) :
  buffer_inv (buf s) -> is_int n ->
  write_bytes fuel src n s =
    (expand_until fuel (pos (buf s) + n) ;; store_bytes src n) s.
Proof.
  intros Hinv Hn. unfold write_bytes, expand_until, bind.
  rewrite (expand_while_cond fuel _ (fun b => pos (buf s) + n >? length b));
    [reflexivity | assumption |].
  intros b ->. rewrite xlen_wrap_small; [reflexivity |].
  destruct Hinv as (? & ? & ?). unfold is_int, INT_MAX, R_XLEN_T_MAX in *. lia.
Qed.

Lemma extends_committed (s s' : state) :
  buffer_inv (buf s) -> extends s s' ->
  committed (buf s') = committed (buf s).
Proof.
  intros (Hpos & _ & Hdata) (Hp & _ & Hd & _). unfold committed.
  rewrite Hp, Hd, take_app_le by lia. reflexivity.
Qed.

(** What a successful [write_byte] leaves behind. *)
Lemma write_byte_ok (fuel : nat) (c : Z) (s s' : state) :
  buffer_inv (buf s) ->
  write_byte fuel c s = Ok tt s' ->
  exists s1,
    extends s s1 /\ buffer_inv (buf s1) /\ pos (buf s) < length (buf s1) /\
    s' = store_at (Z.to_nat (pos (buf s))) (Some (uchar_of_int c))
           (pos (buf s) + 1) s1.
Proof.
  intros Hinv. rewrite write_byte_eq by assumption.
  unfold bind, expand_until.
  destruct (expand_while _ _ s) as [[] s1 | | |] eqn:Hloop; try discriminate.
  apply expand_while_ok in Hloop as (Hinv1 & Hext & Hcond); [| assumption].
  rewrite Z.gtb_ltb in Hcond. apply Z.ltb_ge in Hcond.
  pose proof Hext as (Hp & _).
  pose proof Hinv1 as (Hpos1 & Hmax1 & Hdata1).
  unfold store_byte, bind, get. rewrite Hp.
  destruct (Z.leb_spec 0 (pos (buf s))); [| lia].
  destruct (Z.ltb_spec (pos (buf s)) (Z.of_nat (List.length (data (buf s1)))));
    [| lia].
  cbn [andb put]. rewrite xlen_wrap_small
    by (unfold R_XLEN_T_MAX in *; lia).
  intros [= <-]. exists s1.
  split; [assumption | split; [assumption | split; [lia | reflexivity]]].
Qed.

Lemma write_byte_appends (fuel : nat) (c : Z) (s s' : state) :
  buffer_inv (buf s) ->
  write_byte fuel c s = Ok tt s' ->
  appends s [uchar_of_int c] s'.
Proof.
  intros Hinv Hw.
  destruct (write_byte_ok _ _ _ _ Hinv Hw)
    as (s1 & Hext & Hinv1 & Hlt & ->).
  pose proof (extends_committed _ _ Hinv Hext) as Hcomm.
  pose proof Hext as (Hp & Hlen & Hd & Hlive).
  pose proof Hinv as (Hpos & _ & _).
  pose proof Hinv1 as (_ & _ & Hdata1).
  unfold appends. split; [| split; [| split; [| split]]].
  - apply store_at_inv; [assumption | lia].
  - reflexivity.
  - rewrite <- Hcomm. unfold committed, store_at.
    cbn [buf set_pos set_data pos data]. rewrite Hp.
    replace (Z.to_nat (pos (buf s) + 1)) with (S (Z.to_nat (pos (buf s))))
      by lia.
    erewrite take_S_r by (apply list_lookup_insert_eq; lia).
    rewrite take_insert_ge by lia. reflexivity.
  - exact Hlen.
  - exact Hlive.
Qed.

(** [memcpy] into a block succeeds exactly within the bounds of both
    blocks. *)
Lemma memcpy_to_Some (dst : list cell) (off : Z) (src : list cell) (n : Z)
    (d : list cell) :
  memcpy_to dst off src n = Some d ->
  0 <= off /\ 0 <= n /\ off + n <= Z.of_nat (List.length dst) /\
  n <= Z.of_nat (List.length src) /\
  d = take (Z.to_nat off) dst ++ take (Z.to_nat n) src
      ++ drop (Z.to_nat (off + n)) dst.
Proof.
  unfold memcpy_to.
  destruct (Z.leb_spec 0 off), (Z.leb_spec 0 n),
    (Z.leb_spec (off + n) (Z.of_nat (List.length dst))),
    (Z.leb_spec n (Z.of_nat (List.length src)));
    cbn [andb]; try discriminate.
  intros [= <-]. auto.
Qed.

Lemma memcpy_to_in_bounds (dst : list cell) (off : Z) (src : list cell) (n : Z) :
  0 <= off -> 0 <= n -> off + n <= Z.of_nat (List.length dst) ->
  n <= Z.of_nat (List.length src) ->
  memcpy_to dst off src n =
    Some (take (Z.to_nat off) dst ++ take (Z.to_nat n) src
          ++ drop (Z.to_nat (off + n)) dst).
Proof.
  intros. unfold memcpy_to.
  destruct (Z.leb_spec 0 off), (Z.leb_spec 0 n),
    (Z.leb_spec (off + n) (Z.of_nat (List.length dst))),
    (Z.leb_spec n (Z.of_nat (List.length src))); (reflexivity || lia).
Qed.

(** What a successful [write_bytes] leaves behind. *)
Lemma write_bytes_ok (fuel : nat) (src : list byte) (n : Z) (s s' : state) :
  buffer_inv (buf s) -> is_int n ->
  write_bytes fuel src n s = Ok tt s' ->
  exists s1,
    extends s s1 /\ buffer_inv (buf s1) /\
    0 <= n <= Z.of_nat (List.length src) /\
    pos (buf s) + n <= length (buf s1) /\
    s' = set_pos (pos (buf s) + n)
           (set_data
              (take (Z.to_nat (pos (buf s))) (data (buf s1))
               ++ (Some <$> take (Z.to_nat n) src)
               ++ drop (Z.to_nat (pos (buf s) + n)) (data (buf s1))) s1).
Proof.
  intros Hinv Hn. rewrite write_bytes_eq by assumption.
  unfold bind, expand_until.
  destruct (expand_while _ _ s) as [[] s1 | | |] eqn:Hloop; try discriminate.
  apply expand_while_ok in Hloop as (Hinv1 & Hext & Hcond); [| assumption].
  rewrite Z.gtb_ltb in Hcond. apply Z.ltb_ge in Hcond.
  pose proof Hext as (Hp & _).
  pose proof Hinv as (Hpos & _ & _).
  pose proof Hinv1 as (Hpos1 & Hmax1 & Hdata1).
  unfold store_bytes, bind, get. rewrite Hp.
  destruct (memcpy_to _ _ _ _) as [d |] eqn:Hcpy; [| discriminate].
  apply memcpy_to_Some in Hcpy as (_ & Hsz & Hfit & Hsrc & ->).
  assert (Hn0 : 0 <= n).
  { destruct (Z.le_gt_cases 0 n) as [| Hneg]; [assumption |].
    pose proof (size_of_int_negative n) as Hbig.
    unfold is_int, INT_MAX, R_XLEN_T_MAX in *. lia. }
  rewrite size_of_int_small in *
    by (unfold is_int, INT_MAX in Hn; lia).
  rewrite length_fmap in Hsrc.
  cbn [put]. rewrite xlen_wrap_small by (unfold R_XLEN_T_MAX in *; lia).
  intros [= <-]. exists s1. rewrite fmap_take.
  split; [assumption | split; [assumption | split; [lia | split; [lia |]]]].
  reflexivity.
Qed.

Lemma write_bytes_appends
    (fuel : nat) (src : list byte) (n : Z) (s s' : state) :
  buffer_inv (buf s) -> is_int n ->
  write_bytes fuel src n s = Ok tt s' ->
  0 <= n <= Z.of_nat (List.length src) /\
  appends s (take (Z.to_nat n) src) s'.
Proof.
  intros Hinv Hn Hw.
  destruct (write_bytes_ok _ _ _ _ _ Hinv Hn Hw)
    as (s1 & Hext & Hinv1 & Hsrc & Hfit & ->).
  pose proof (extends_committed _ _ Hinv Hext) as Hcomm.
  pose proof Hext as (Hp & Hlen & Hd & Hlive).
  pose proof Hinv as (Hpos & _ & _).
  pose proof Hinv1 as (_ & Hmax1 & Hdata1).
  split; [assumption |].
  assert (Htake : List.length (take (Z.to_nat n) src) = Z.to_nat n)
    by (rewrite length_take; lia).
  unfold appends. split; [| split; [| split; [| split]]].
  - unfold buffer_inv. cbn [buf set_pos set_data length pos data].
    rewrite !length_app, length_fmap, length_take, length_drop, Htake.
    lia.
  - cbn [buf set_pos set_data pos]. rewrite Htake. lia.
  - rewrite <- Hcomm. unfold committed.
    cbn [buf set_pos set_data pos data]. rewrite Hp.
    rewrite app_assoc, take_app_length'; [reflexivity |].
    rewrite length_app, length_fmap, length_take, Htake. lia.
  - exact Hlen.
  - exact Hlive.
Qed.

(** ** The read callbacks *)

Lemma set_pos_id (s : state) : set_pos (pos (buf s)) s = s.
Proof. destruct s as [[] ?]. reflexivity. Qed.

Lemma memcpy_from_Some (src : list cell) (off n : Z) (dst : list cell) :
  memcpy_from src off n = Some dst ->
  0 <= off /\ 0 <= n /\ off + n <= Z.of_nat (List.length src) /\
  dst = take (Z.to_nat n) (drop (Z.to_nat off) src).
Proof.
  unfold memcpy_from.
  destruct (Z.leb_spec 0 off), (Z.leb_spec 0 n),
    (Z.leb_spec (off + n) (Z.of_nat (List.length src)));
    cbn [andb]; try discriminate.
  intros [= <-]. auto.
Qed.

Lemma memcpy_from_in_bounds (src : list cell) (off n : Z) :
  0 <= off -> 0 <= n -> off + n <= Z.of_nat (List.length src) ->
  memcpy_from src off n = Some (take (Z.to_nat n) (drop (Z.to_nat off) src)).
Proof.
  intros. unfold memcpy_from.
  destruct (Z.leb_spec 0 off), (Z.leb_spec 0 n),
    (Z.leb_spec (off + n) (Z.of_nat (List.length src))); (reflexivity || lia).
Qed.

Lemma read_byte_underrun (s : state) :
  length (buf s) <= pos (buf s) -> read_byte s = Raise BufferUnderrun s.
Proof.
  intros Hend. unfold read_byte, bind, get.
  destruct (Z.geb_spec (pos (buf s)) (length (buf s))); [reflexivity | lia].
Qed.

Lemma read_byte_ok (s s' : state) (c : Z) :
  buffer_inv (buf s) ->
  read_byte s = Ok c s' ->
  pos (buf s) < length (buf s) /\
  s' = set_pos (pos (buf s) + 1) s /\
  exists b, data (buf s) !! Z.to_nat (pos (buf s)) = Some (Some b) /\
            c = int_of_uchar b.
Proof.
  intros (Hpos & Hmax & Hdata). unfold read_byte, bind, get.
  destruct (Z.geb_spec (pos (buf s)) (length (buf s))); [discriminate |].
  destruct (Z.leb_spec 0 (pos (buf s))); [| discriminate].
  destruct (data (buf s) !! Z.to_nat (pos (buf s))) as [[b |] |];
    try discriminate.
  cbn [put ret]. rewrite xlen_wrap_small by (unfold R_XLEN_T_MAX in *; lia).
  intros [= <- <-]. eauto.
Qed.

Lemma read_byte_next (s : state) (vec : list byte) :
  views (buf s) vec -> pos (buf s) < length (buf s) ->
  exists b, vec !! Z.to_nat (pos (buf s)) = Some b /\
            read_byte s = Ok (int_of_uchar b) (set_pos (pos (buf s) + 1) s).
Proof.
  intros [(Hpos & Hmax & Hdata) Hvec] Hlt.
  rewrite Hvec, length_fmap in Hdata.
  destruct (lookup_lt_is_Some_2 vec (Z.to_nat (pos (buf s)))) as [b Hb];
    [lia |].
  exists b. split; [assumption |].
  unfold read_byte, bind, get.
  destruct (Z.geb_spec (pos (buf s)) (length (buf s))); [lia |].
  destruct (Z.leb_spec 0 (pos (buf s))); [| lia].
  rewrite Hvec, list_lookup_fmap, Hb. cbn [fmap option_fmap option_map put ret].
  rewrite xlen_wrap_small by (unfold R_XLEN_T_MAX in *; lia).
  reflexivity.
Qed.

Lemma read_bytes_underrun (s : state) (n : Z) :
  buffer_inv (buf s) -> is_int n ->
  length (buf s) < pos (buf s) + n ->
  read_bytes n s = Raise BufferUnderrun s.
Proof.
  intros (Hpos & Hmax & Hdata) Hn Hend. unfold read_bytes, bind, get.
  rewrite xlen_wrap_small
    by (unfold is_int, INT_MAX, R_XLEN_T_MAX in *; lia).
  destruct (Z.gtb_spec (pos (buf s) + n) (length (buf s))); [reflexivity | lia].
Qed.

(** A negative length reaches [memcpy] as a size no block has. *)
Lemma read_bytes_negative (s : state) (n : Z) :
  buffer_inv (buf s) -> is_int n -> n < 0 ->
  pos (buf s) + n <= length (buf s) ->
  read_bytes n s = Fault.
Proof.
  intros (Hpos & Hmax & Hdata) Hn Hneg Hfit. unfold read_bytes, bind, get.
  rewrite xlen_wrap_small
    by (unfold is_int, INT_MAX, R_XLEN_T_MAX in *; lia).
  destruct (Z.gtb_spec (pos (buf s) + n) (length (buf s))); [lia |].
  destruct (memcpy_from _ _ _) as [d |] eqn:Hcpy; [| reflexivity].
  apply memcpy_from_Some in Hcpy as (_ & _ & Hsz & _).
  pose proof (size_of_int_negative n).
  unfold is_int, INT_MAX, R_XLEN_T_MAX in *. lia.
Qed.

Lemma read_bytes_ok (s s' : state) (n : Z) (dst : list cell) :
  buffer_inv (buf s) -> is_int n ->
  read_bytes n s = Ok dst s' ->
  0 <= n /\ pos (buf s) + n <= length (buf s) /\
  s' = set_pos (pos (buf s) + n) s /\
  dst = take (Z.to_nat n) (drop (Z.to_nat (pos (buf s))) (data (buf s))).
Proof.
  intros (Hpos & Hmax & Hdata) Hn. unfold read_bytes, bind, get.
  rewrite xlen_wrap_small
    by (unfold is_int, INT_MAX, R_XLEN_T_MAX in *; lia).
  destruct (Z.gtb_spec (pos (buf s) + n) (length (buf s))); [discriminate |].
  destruct (memcpy_from _ _ _) as [d |] eqn:Hcpy; [| discriminate].
  apply memcpy_from_Some in Hcpy as (_ & Hsz & Hfit & ->).
  assert (Hn0 : 0 <= n).
  { destruct (Z.le_gt_cases 0 n) as [| Hneg]; [assumption |].
    pose proof (size_of_int_negative n) as Hbig.
    unfold is_int, INT_MAX, R_XLEN_T_MAX in *. lia. }
  rewrite size_of_int_small by (unfold is_int, INT_MAX in Hn; lia).
  cbn [put ret]. intros [= <- <-]. auto.
Qed.

Lemma read_bytes_in_bounds (s : state) (n : Z) :
  buffer_inv (buf s) -> 0 <= n <= INT_MAX ->
  pos (buf s) + n <= length (buf s) ->
  read_bytes n s =
    Ok (take (Z.to_nat n) (drop (Z.to_nat (pos (buf s))) (data (buf s))))
       (set_pos (pos (buf s) + n) s).
Proof.
  intros (Hpos & Hmax & Hdata) Hn Hfit. unfold read_bytes, bind, get.
  rewrite xlen_wrap_small by (unfold INT_MAX, R_XLEN_T_MAX in *; lia).
  destruct (Z.gtb_spec (pos (buf s) + n) (length (buf s))); [lia |].
  rewrite size_of_int_small by (unfold INT_MAX in Hn; lia).
  rewrite memcpy_from_in_bounds by lia. reflexivity.
Qed.

(** ** Every operation of the buffer *)

Lemma committed_length (b : buffer) :
  buffer_inv b -> List.length (committed b) = Z.to_nat (pos b).
Proof.
  intros (Hpos & _ & Hdata). unfold committed. rewrite length_take. lia.
Qed.

Lemma appends_frame (s s' : state) (bytes : list byte) :
  buffer_inv (buf s) -> appends s bytes s' ->
  take (Z.to_nat (pos (buf s))) (data (buf s')) = committed (buf s) /\
  (List.length (data (buf s)) <= List.length (data (buf s')))%nat.
Proof.
  intros Hinv (Hinv' & Hp & Hc & Hlen & _).
  pose proof (committed_length _ Hinv) as Hcl.
  destruct Hinv as (Hpos & _ & Hdata), Hinv' as (_ & _ & Hdata').
  split; [| lia].
  transitivity (take (Z.to_nat (pos (buf s))) (committed (buf s'))).
  - unfold committed. rewrite take_take. f_equal. lia.
  - rewrite Hc, take_app_length'; [reflexivity | now symmetry].
Qed.

Lemma expand_buffer_ok (s s' : state) :
  buffer_inv (buf s) ->
  expand_buffer s = Ok tt s' ->
  s' = doubled s /\ 2 * length (buf s) <= R_XLEN_T_MAX.
Proof.
  intros Hinv. expand_cases s Hinv; try discriminate.
  intros [= <-]. split; [reflexivity | lia].
Qed.

(** What any successful operation does to the buffer. *)
Lemma exec_ok (fuel : nat) (o : op) (s s' : state) :
  op_typed o -> buffer_inv (buf s) ->
  exec fuel o s = Ok tt s' ->
  buffer_inv (buf s') /\
  pos (buf s) <= pos (buf s') /\
  (is_append o = true -> pos (buf s') = pos (buf s) + appended o) /\
  take (Z.to_nat (pos (buf s))) (data (buf s')) = committed (buf s) /\
  (List.length (data (buf s)) <= List.length (data (buf s')))%nat.
Proof.
  intros Hty Hinv Hex. destruct o as [c | src n | | | n]; cbn [exec] in Hex.
  - pose proof (write_byte_appends _ _ _ _ Hinv Hex) as Happ.
    destruct (appends_frame _ _ _ Hinv Happ) as [Hframe Hsize].
    destruct Happ as (Hinv' & Hp & _). cbn [List.length] in Hp.
    repeat (split; [first [assumption | lia | intros _; cbn [appended]; lia] |]).
    assumption.
  - cbn [op_typed] in Hty.
    destruct (write_bytes_appends _ _ _ _ _ Hinv Hty Hex) as [Hn Happ].
    destruct (appends_frame _ _ _ Hinv Happ) as [Hframe Hsize].
    destruct Happ as (Hinv' & Hp & _). rewrite length_take in Hp.
    repeat (split; [first [assumption | lia | intros _; cbn [appended]; lia] |]).
    assumption.
  - destruct (expand_buffer_ok _ _ Hinv Hex) as [-> Hdbl].
    pose proof (doubled_inv s Hinv Hdbl) as Hinv'.
    pose proof Hinv as (Hpos & _ & Hdata).
    split; [assumption |].
    unfold doubled, committed. cbn [buf pos data is_append].
    repeat (split; [first [assumption | lia | discriminate] |]).
    split; [rewrite take_app_le by lia; reflexivity |].
    rewrite length_app. lia.
  - unfold bind in Hex.
    destruct (read_byte s) as [c s1 | | |] eqn:Hrd; try discriminate.
    injection Hex as <-.
    destruct (read_byte_ok _ _ _ Hinv Hrd) as (Hlt & -> & _).
    pose proof Hinv as (Hpos & Hmax & Hdata).
    unfold buffer_inv, committed. cbn [buf set_pos pos length data is_append].
    repeat (split; [first [assumption | lia | discriminate] |]).
    split; [reflexivity | lia].
  - cbn [op_typed] in Hty. unfold bind in Hex.
    destruct (read_bytes n s) as [dst s1 | | |] eqn:Hrd; try discriminate.
    injection Hex as <-.
    destruct (read_bytes_ok _ _ _ _ Hinv Hty Hrd) as (Hn & Hfit & -> & _).
    pose proof Hinv as (Hpos & Hmax & Hdata).
    unfold buffer_inv, committed. cbn [buf set_pos pos length data is_append].
    repeat (split; [first [assumption | lia | discriminate] |]).
    split; [reflexivity | lia].
Qed.

Lemma init_buffer_ok (nbytes : Z) (h h' : allocator) (b : buffer) :
  is_int nbytes ->
  init_buffer nbytes h = Ok b h' ->
  0 <= nbytes /\ b = mkbuffer nbytes 0 (replicate (Z.to_nat nbytes) None) /\
  live h' = S (S (live h)).
Proof.
  intros Hn. unfold init_buffer, bind, malloc.
  destruct (served sizeof_buffer h); [| discriminate].
  unfold served at 1.
  destruct (Z.ltb_spec (size_of_int nbytes) (2 ^ 63)) as [Hlt | Hge];
    cbn [andb oracle]; [| discriminate].
  assert (Hn0 : 0 <= nbytes).
  { destruct (Z.le_gt_cases 0 nbytes) as [| Hneg]; [assumption |].
    pose proof (size_of_int_negative nbytes).
    unfold is_int, INT_MAX in Hn. lia. }
  rewrite size_of_int_small by (unfold is_int, INT_MAX in Hn; lia).
  destruct (hd true (tl (oracle h))); [| discriminate].
  cbn [ret live]. intros [= <- <-]. auto.
Qed.

Lemma init_buffer_inv (nbytes : Z) (h h' : allocator) (b : buffer) :
  is_int nbytes -> init_buffer nbytes h = Ok b h' -> buffer_inv b.
Proof.
  intros Hn Hinit.
  destruct (init_buffer_ok _ _ _ _ Hn Hinit) as (Hn0 & -> & _).
  unfold buffer_inv. cbn [length pos data]. rewrite length_replicate.
  unfold is_int, INT_MAX, R_XLEN_T_MAX in *. lia.
Qed.

Lemma reader_of_views (vec : list byte) :
  Z.of_nat (List.length vec) <= R_XLEN_T_MAX -> views (reader_of vec) vec.
Proof.
  intros Hlen. unfold views, buffer_inv, reader_of. cbn [length pos data].
  rewrite length_fmap. repeat split; (lia || reflexivity).
Qed.

(** ** The invariant of the cursor *)

(** C4. The invariant [buffer_inv], whose first part is
    [0 <= pos <= length] (position within capacity for the write buffer,
    position within length for the reader), holds of the buffer that
    [init_buffer] returns and of the reader that [unpack_] builds, and
    every operation that returns (single-byte append, bulk append, growth
    step, single-byte read, bulk read) takes a buffer that satisfies it
    to one that satisfies it. *)
Theorem position_invariant :
  (forall b, buffer_inv b -> pos b <= length b) /\
  (forall nbytes h b h',
      is_int nbytes -> init_buffer nbytes h = Ok b h' -> buffer_inv b) /\
  (forall vec,
      Z.of_nat (List.length vec) <= R_XLEN_T_MAX ->
      buffer_inv (reader_of vec)) /\
  (forall fuel o s s',
      op_typed o -> buffer_inv (buf s) ->
      exec fuel o s = Ok tt s' -> buffer_inv (buf s')).
Proof.
  split; [| split; [| split]].
  - intros b (Hpos & _). lia.
  - intros nbytes h b h'. apply init_buffer_inv.
  - intros vec Hlen. now apply reader_of_views.
  - intros fuel o s s' Hty Hinv Hex.
    now destruct (exec_ok _ _ _ _ Hty Hinv Hex) as (Hinv' & _).
Qed.

Lemma position_invariant_witness :
  exists s',
    exec 64 (WriteBytes ["d"; "e"; "f"]%byte 3) Example.abc = Ok tt s' /\
    buffer_inv (buf s').
Proof.
  eexists. split; [vm_compute; reflexivity |].
  apply (proj2 (proj2 (proj2 position_invariant))
           64%nat (WriteBytes ["d"; "e"; "f"]%byte 3) Example.abc).
  - cbn. unfold is_int, INT_MAX. lia.
  - unfold buffer_inv, R_XLEN_T_MAX. cbn. lia.
  - vm_compute. reflexivity.
Defined.

(** ** The contract of the reader *)

(** C5. On a reader over [vec]: [read_byte] raises [BufferUnderrun], with
    the memory untouched, exactly when the cursor is at the end, and
    otherwise returns the byte under the cursor and advances by one;
    [read_bytes n] raises [BufferUnderrun], with the memory untouched and
    nothing copied, exactly when [pos + n > length]; when the [n] bytes
    are there it copies them and advances by [n]; for [n = 0] it returns
    with nothing changed. *)
Theorem read_contract (s : state) (vec : list byte) (n : Z) :
  views (buf s) vec -> is_int n ->
  (read_byte s = Raise BufferUnderrun s <-> pos (buf s) = length (buf s)) /\
  (pos (buf s) <> length (buf s) ->
   exists b,
     vec !! Z.to_nat (pos (buf s)) = Some b /\
     read_byte s = Ok (int_of_uchar b) (set_pos (pos (buf s) + 1) s)) /\
  (read_bytes n s = Raise BufferUnderrun s <->
   pos (buf s) + n > length (buf s)) /\
  (0 <= n -> pos (buf s) + n <= length (buf s) ->
   read_bytes n s =
     Ok (Some <$> take (Z.to_nat n) (drop (Z.to_nat (pos (buf s))) vec))
        (set_pos (pos (buf s) + n) s)) /\
  read_bytes 0 s = Ok [] s.
Proof.
  intros [Hinv Hvec] Hn. pose proof Hinv as (Hpos & Hmax & Hdata).
  assert (Hnext : pos (buf s) <> length (buf s) ->
    exists b,
      vec !! Z.to_nat (pos (buf s)) = Some b /\
      read_byte s = Ok (int_of_uchar b) (set_pos (pos (buf s) + 1) s)).
  { intros Hne. apply read_byte_next; [split; assumption | lia]. }
  assert (Hbulk : forall m, 0 <= m <= INT_MAX ->
    pos (buf s) + m <= length (buf s) ->
    read_bytes m s =
      Ok (Some <$> take (Z.to_nat m) (drop (Z.to_nat (pos (buf s))) vec))
         (set_pos (pos (buf s) + m) s)).
  { intros m Hm Hfit. rewrite read_bytes_in_bounds by assumption.
    now rewrite Hvec, fmap_take, fmap_drop. }
  split; [| split; [assumption | split; [| split]]].
  - split.
    + intros Hraise.
      destruct (Z.eq_dec (pos (buf s)) (length (buf s))) as [| Hne];
        [assumption |].
      destruct (Hnext Hne) as (b & _ & Hok). congruence.
    + intros Hend. apply read_byte_underrun. lia.
  - split.
    + intros Hraise.
      destruct (Z.le_gt_cases (pos (buf s) + n) (length (buf s)))
        as [Hfit | Hover]; [| lia].
      destruct (Z.le_gt_cases 0 n) as [Hn0 | Hneg].
      * rewrite Hbulk in Hraise by (unfold is_int in Hn; lia). discriminate.
      * rewrite read_bytes_negative in Hraise by assumption. discriminate.
    + intros Hover. apply read_bytes_underrun; [assumption .. | lia].
  - intros Hn0 Hfit. apply Hbulk; [unfold is_int in Hn; lia | assumption].
  - rewrite Hbulk by (unfold INT_MAX; lia).
    rewrite Z.add_0_r, set_pos_id. reflexivity.
Qed.

Lemma read_contract_witness :
  (read_byte Example.wxyz = Raise BufferUnderrun Example.wxyz <->
   pos (buf Example.wxyz) = length (buf Example.wxyz)) /\
  read_bytes 2 Example.wxyz =
    Ok [Some "x"; Some "y"]%byte (set_pos 3 Example.wxyz) /\
  (read_bytes 4 Example.wxyz = Raise BufferUnderrun Example.wxyz <->
   1 + 4 > 4).
Proof.
  assert (Hv : views (buf Example.wxyz) ["w"; "x"; "y"; "z"]%byte).
  { unfold views, buffer_inv, R_XLEN_T_MAX. cbn. repeat split; lia. }
  assert (H2 : is_int 2) by (unfold is_int, INT_MAX; lia).
  assert (H4 : is_int 4) by (unfold is_int, INT_MAX; lia).
  split; [| split].
  - exact (proj1 (read_contract Example.wxyz _ 2 Hv H2)).
  - apply (proj1 (proj2 (proj2 (proj2 (read_contract Example.wxyz _ 2 Hv H2))))).
    + lia.
    + cbn. lia.
  - exact (proj1 (proj2 (proj2 (read_contract Example.wxyz _ 4 Hv H4)))).
Defined.

(** ** The cursor counts the bytes appended *)

Lemma exec_all_appends (fuel : nat) (ops : list op) (s s' : state) :
  buffer_inv (buf s) ->
  Forall (fun o => is_append o = true /\ op_typed o) ops ->
  exec_all fuel ops s = Ok tt s' ->
  buffer_inv (buf s') /\ pos (buf s') = pos (buf s) + total_appended ops.
Proof.
  revert s. induction ops as [| o ops IH]; intros s Hinv Hall; cbn [exec_all].
  - intros [= <-]. cbn. split; [assumption | lia].
  - apply Forall_cons in Hall as [[Happ Hty] Hall]. unfold bind.
    destruct (exec fuel o s) as [[] s1 | | |] eqn:Hex; try discriminate.
    intros Hrest.
    destruct (exec_ok _ _ _ _ Hty Hinv Hex) as (Hinv1 & _ & Hp & _).
    destruct (IH s1 Hinv1 Hall Hrest) as [Hinv' Hp'].
    split; [assumption |].
    rewrite Hp', (Hp Happ).
    change (total_appended (o :: ops))
      with (appended o + total_appended ops). lia.
Qed.

(** C6. On the buffer that [init_buffer] returns, after any sequence of
    appends (single-byte or bulk) that all return, the position is the
    total number of bytes appended; and no operation that returns moves
    the position of a buffer backwards. *)
Theorem position_counts_appends :
  (forall fuel nbytes h b h' ops s',
      is_int nbytes -> init_buffer nbytes h = Ok b h' ->
      Forall (fun o => is_append o = true /\ op_typed o) ops ->
      exec_all fuel ops (mkstate b h') = Ok tt s' ->
      pos (buf s') = total_appended ops) /\
  (forall fuel o s s',
      op_typed o -> buffer_inv (buf s) ->
      exec fuel o s = Ok tt s' -> pos (buf s) <= pos (buf s')).
Proof.
  split.
  - intros fuel nbytes h b h' ops s' Hn Hinit Hall Hrun.
    pose proof (init_buffer_inv _ _ _ _ Hn Hinit) as Hinv.
    destruct (init_buffer_ok _ _ _ _ Hn Hinit) as (_ & Hb & _).
    destruct (exec_all_appends fuel ops (mkstate b h') s' Hinv Hall Hrun)
      as [_ Hp].
    rewrite Hp, Hb. cbn. reflexivity.
  - intros fuel o s s' Hty Hinv Hex.
    now destruct (exec_ok _ _ _ _ Hty Hinv Hex) as (_ & Hle & _).
Qed.

Lemma position_counts_appends_witness :
  exists b h' s',
    init_buffer 4 (mkallocator 0 []) = Ok b h' /\
    exec_all 64
      [WriteByte 97; WriteBytes ["b"; "c"; "d"; "e"]%byte 4; WriteByte 102]
      (mkstate b h') = Ok tt s' /\
    pos (buf s') = 6.
Proof.
  do 3 eexists. split; [vm_compute; reflexivity |].
  split; [vm_compute; reflexivity |].
  change 6 with
    (total_appended
       [WriteByte 97; WriteBytes ["b"; "c"; "d"; "e"]%byte 4; WriteByte 102]).
  eapply (proj1 position_counts_appends 64%nat 4 (mkallocator 0 [])).
  - unfold is_int, INT_MAX. lia.
  - vm_compute. reflexivity.
  - repeat constructor; cbn; unfold is_int, INT_MAX; lia.
  - vm_compute. reflexivity.
Defined.

(** ** Committed bytes are never disturbed *)

(** C7. Every operation that returns, an append that triggers one or
    more growth steps included, leaves the cells below the old position
    as they were, and the block no shorter than it was. *)
Theorem committed_bytes_preserved (fuel : nat) (o : op) (s s' : state) :
  op_typed o -> buffer_inv (buf s) ->
  exec fuel o s = Ok tt s' ->
  take (Z.to_nat (pos (buf s))) (data (buf s')) = committed (buf s) /\
  (List.length (data (buf s)) <= List.length (data (buf s')))%nat.
Proof.
  intros Hty Hinv Hex.
  now destruct (exec_ok _ _ _ _ Hty Hinv Hex) as (_ & _ & _ & Hframe).
Qed.

Lemma committed_bytes_preserved_witness :
  exists s',
    exec 64 (WriteBytes ["d"; "e"; "f"]%byte 3) Example.abc = Ok tt s' /\
    length (buf s') = 8 /\
    take 3 (data (buf s')) = [Some "a"; Some "b"; Some "c"]%byte.
Proof.
  eexists. split; [vm_compute; reflexivity |].
  split; [reflexivity |].
  apply (committed_bytes_preserved 64
           (WriteBytes ["d"; "e"; "f"]%byte 3) Example.abc).
  - cbn. unfold is_int, INT_MAX. lia.
  - unfold buffer_inv, R_XLEN_T_MAX. cbn. lia.
  - vm_compute. reflexivity.
Defined.

(** ** Bytes and ints at the callbacks *)

Lemma read_byte_range (s s' : state) (r : Z) :
  read_byte s = Ok r s' -> 0 <= r <= 255.
Proof.
  unfold read_byte, bind, get.
  destruct (pos (buf s) >=? length (buf s)); [discriminate |].
  destruct (0 <=? pos (buf s)); [| discriminate].
  destruct (data (buf s) !! Z.to_nat (pos (buf s))) as [[b |] |];
    try discriminate.
  cbn [put ret]. intros [= <- _]. apply int_of_uchar_range.
Qed.

(** C10. [write_byte] commits [c mod 256], the low eight bits of its
    [int] argument, at the old position; whatever [read_byte] returns
    lies in [0, 255]; and [read_byte] with the cursor back on the byte
    just written returns [c mod 256]. *)
Theorem byte_truncation (fuel : nat) (c : Z) (s s' : state) :
  buffer_inv (buf s) ->
  write_byte fuel c s = Ok tt s' ->
  data (buf s') !! Z.to_nat (pos (buf s)) = Some (Some (uchar_of_int c)) /\
  int_of_uchar (uchar_of_int c) = c mod 256 /\
  (forall t t' r, read_byte t = Ok r t' -> 0 <= r <= 255) /\
  read_byte (set_pos (pos (buf s)) s') = Ok (c mod 256) s'.
Proof.
  intros Hinv Hw.
  destruct (write_byte_ok _ _ _ _ Hinv Hw) as (s1 & Hext & Hinv1 & Hlt & ->).
  pose proof Hinv as (Hpos & _ & _).
  pose proof Hinv1 as (_ & Hmax1 & Hdata1).
  assert (Hcell :
    <[Z.to_nat (pos (buf s)) := Some (uchar_of_int c)]> (data (buf s1))
      !! Z.to_nat (pos (buf s)) = Some (Some (uchar_of_int c)))
    by (apply list_lookup_insert_eq; lia).
  split; [exact Hcell |].
  split; [apply int_of_uchar_of_int |].
  split; [intros t t' r; apply read_byte_range |].
  unfold read_byte, bind, get, store_at.
  cbn [buf set_pos set_data pos length data].
  destruct (Z.geb_spec (pos (buf s)) (length (buf s1))); [lia |].
  destruct (Z.leb_spec 0 (pos (buf s))); [| lia].
  rewrite Hcell. cbn [put ret].
  rewrite xlen_wrap_small by (unfold R_XLEN_T_MAX in *; lia).
  rewrite int_of_uchar_of_int. reflexivity.
Qed.

Lemma byte_truncation_witness :
  exists s',
    write_byte 64 (-159) Example.abc = Ok tt s' /\
    data (buf s') !! 3%nat = Some (Some "a"%byte) /\
    read_byte (set_pos 3 s') = Ok 97 s'.
Proof.
  eexists. split; [vm_compute; reflexivity |].
  assert (Hinv : buffer_inv (buf Example.abc))
    by (unfold buffer_inv, R_XLEN_T_MAX; cbn; lia).
  pose proof (byte_truncation 64 (-159) Example.abc _ Hinv eq_refl)
    as (Hcell & _ & _ & Hread).
  split; [exact Hcell | exact Hread].
Defined.

(** ** The growth policy *)

(** A loop that returns has doubled the capacity the least number of
    times that reaches [need]. *)
Lemma expand_until_ok_least (fuel : nat) (need : Z) (s s' : state) :
  buffer_inv (buf s) ->
  expand_until fuel need s = Ok tt s' ->
  exists k : nat,
    length (buf s') = length (buf s) * 2 ^ Z.of_nat k /\
    need <= length (buf s') /\
    forall j : nat, (j < k)%nat -> length (buf s) * 2 ^ Z.of_nat j < need.
Proof.
  unfold expand_until.
  revert s. induction fuel as [| fuel IH]; intros s Hinv;
    rewrite expand_while_eq;
    destruct (Z.gtb_spec need (length (buf s))) as [Hgt | Hle];
    try discriminate;
    try (intros [= <-]; exists 0%nat;
         split; [cbn; lia | split; [lia | intros j Hj; lia]]).
  unfold bind. expand_cases s Hinv; try discriminate.
  intros Hloop.
  assert (Hdbl : 2 * length (buf s) <= R_XLEN_T_MAX) by lia.
  destruct (IH _ (doubled_inv s Hinv Hdbl) Hloop) as (k & Hk & Hneed & Hleast).
  change (length (buf (doubled s))) with (2 * length (buf s)) in Hk, Hleast.
  exists (S k). rewrite Nat2Z.inj_succ, Z.pow_succ_r by lia.
  split; [lia | split; [assumption |]].
  intros [| j] Hj.
  - cbn. lia.
  - rewrite Nat2Z.inj_succ, Z.pow_succ_r by lia.
    specialize (Hleast j ltac:(lia)). lia.
Qed.

Section EngineFacts.

Context {robject : Type}.
Variable R_Serialize : SEXP robject -> encoder.
Variable R_Unserialize : decoder (SEXP robject).

(** An error raised under the encoder leaves [pack_] at once. *)
Lemma pack_raises fuel robj h b h1 e s' :
  init_buffer 16384 h = Ok b h1 ->
  run_encoder fuel (R_Serialize robj) (mkstate b h1) = Raise e s' ->
  pack_ R_Serialize fuel robj h = Raise e (heap s').
Proof.
  intros Hinit Hrun. unfold pack_, bind at 1. rewrite Hinit.
  unfold bind at 1, with_buffer. rewrite Hrun. reflexivity.
Qed.

End EngineFacts.

(** C8, as the code has it. A growth step sets the capacity to exactly
    twice the old one; an append repeats the step until the capacity
    holds the bytes, so it ends on the old capacity doubled the least
    number of times that suffices. When the double passes
    [R_XLEN_T_MAX] the step raises [CapacityExceeded] with the block and
    the allocator untouched (no reallocation is attempted), and the error
    leaves [pack_] as it is. *)
Theorem growth_by_doubling :
  (forall s s',
      buffer_inv (buf s) -> expand_buffer s = Ok tt s' ->
      length (buf s') = 2 * length (buf s)) /\
  (forall fuel src n s s',
      buffer_inv (buf s) -> is_int n ->
      write_bytes fuel src n s = Ok tt s' ->
      exists k : nat,
        length (buf s') = length (buf s) * 2 ^ Z.of_nat k /\
        pos (buf s) + n <= length (buf s') /\
        forall j : nat,
          (j < k)%nat -> length (buf s) * 2 ^ Z.of_nat j < pos (buf s) + n) /\
  (forall fuel c s s',
      buffer_inv (buf s) ->
      write_byte fuel c s = Ok tt s' ->
      exists k : nat,
        length (buf s') = length (buf s) * 2 ^ Z.of_nat k /\
        pos (buf s) + 1 <= length (buf s') /\
        forall j : nat,
          (j < k)%nat -> length (buf s) * 2 ^ Z.of_nat j < pos (buf s) + 1) /\
  (forall s,
      buffer_inv (buf s) -> 2 * length (buf s) > R_XLEN_T_MAX ->
      expand_buffer s =
        Raise CapacityExceeded (set_length (2 * length (buf s)) s)) /\
  (forall (robject : Type) (R_Serialize : SEXP robject -> encoder)
          fuel robj h b h1 s',
      init_buffer 16384 h = Ok b h1 ->
      run_encoder fuel (R_Serialize robj) (mkstate b h1)
        = Raise CapacityExceeded s' ->
      pack_ R_Serialize fuel robj h = Raise CapacityExceeded (heap s')).
Proof.
  split; [| split; [| split; [| split]]].
  - intros s s' Hinv Hex.
    destruct (expand_buffer_ok _ _ Hinv Hex) as [-> _]. reflexivity.
  - intros fuel src n s s' Hinv Hn.
    rewrite write_bytes_eq by assumption. unfold bind.
    destruct (expand_until _ _ s) as [[] s1 | | |] eqn:Hloop;
      try discriminate.
    intros Hst.
    assert (Hlen : length (buf s') = length (buf s1)).
    { unfold store_bytes, bind, get in Hst.
      destruct (memcpy_to _ _ _ _); [| discriminate].
      cbn [put] in Hst. injection Hst as <-. reflexivity. }
    rewrite Hlen. now apply (expand_until_ok_least fuel).
  - intros fuel c s s' Hinv.
    rewrite write_byte_eq by assumption. unfold bind.
    destruct (expand_until _ _ s) as [[] s1 | | |] eqn:Hloop;
      try discriminate.
    intros Hst.
    assert (Hlen : length (buf s') = length (buf s1)).
    { unfold store_byte, bind, get in Hst.
      destruct (_ && _); [| discriminate].
      cbn [put] in Hst. injection Hst as <-. reflexivity. }
    rewrite Hlen. now apply (expand_until_ok_least fuel).
  - intros s Hinv Hover. expand_cases s Hinv; (reflexivity || lia).
  - intros robject R_Serialize fuel robj h b h1 s'. apply pack_raises.
Qed.

Lemma growth_by_doubling_witness :
  exists s',
    write_bytes 64 (replicate 9 "000"%byte) 9 Example.empty4 = Ok tt s' /\
    length (buf s') = 16 /\
    exists k : nat,
      length (buf s') = 4 * 2 ^ Z.of_nat k /\
      0 + 9 <= length (buf s') /\
      forall j : nat, (j < k)%nat -> 4 * 2 ^ Z.of_nat j < 0 + 9.
Proof.
  eexists. split; [vm_compute; reflexivity |].
  split; [reflexivity |].
  apply (proj1 (proj2 growth_by_doubling)
           64%nat (replicate 9 "000"%byte) 9 Example.empty4).
  - unfold buffer_inv, R_XLEN_T_MAX. cbn. lia.
  - unfold is_int, INT_MAX. lia.
  - vm_compute. reflexivity.
Defined.

(** C8, as the claim words it, fails: from capacity 4 an append that
    needs 9 bytes takes a first step to 8 and ends on 16, and neither is
    [max (4 * 2) 9 = 9]. *)
Lemma growth_is_not_max_of_double_and_need :
  expand_buffer Example.empty4 = Ok tt (doubled Example.empty4) /\
  length (buf (doubled Example.empty4)) <> spec_growth 4 (0 + 9) /\
  exists s',
    write_bytes 64 (replicate 9 "000"%byte) 9 Example.empty4 = Ok tt s' /\
    length (buf s') = 16 /\
    length (buf s') <> spec_growth 4 (0 + 9).
Proof.
  split; [vm_compute; reflexivity |].
  split; [vm_compute; discriminate |].
  eexists. split; [vm_compute; reflexivity |].
  split; [reflexivity | vm_compute; discriminate].
Qed.

(** ** One bulk append against many single appends *)

Lemma store_byte_in_bounds (c : Z) (s : state) :
  buffer_inv (buf s) -> pos (buf s) < length (buf s) ->
  store_byte c s =
    Ok tt (store_at (Z.to_nat (pos (buf s))) (Some (uchar_of_int c))
             (pos (buf s) + 1) s).
Proof.
  intros (Hpos & Hmax & Hdata) Hlt. unfold store_byte, bind, get.
  destruct (Z.leb_spec 0 (pos (buf s))); [| lia].
  destruct (Z.ltb_spec (pos (buf s)) (Z.of_nat (List.length (data (buf s)))));
    [| lia].
  cbn [andb put]. rewrite xlen_wrap_small by (unfold R_XLEN_T_MAX in *; lia).
  reflexivity.
Qed.

Lemma store_bytes_in_bounds (src : list byte) (n : Z) (s : state) :
  buffer_inv (buf s) ->
  0 <= n <= INT_MAX -> n <= Z.of_nat (List.length src) ->
  pos (buf s) + n <= length (buf s) ->
  store_bytes src n s =
    Ok tt (set_pos (pos (buf s) + n)
             (set_data
                (take (Z.to_nat (pos (buf s))) (data (buf s))
                 ++ (Some <$> take (Z.to_nat n) src)
                 ++ drop (Z.to_nat (pos (buf s) + n)) (data (buf s))) s)).
Proof.
  intros (Hpos & Hmax & Hdata) Hn Hsrc Hfit. unfold store_bytes, bind, get.
  rewrite size_of_int_small by (unfold INT_MAX in Hn; lia).
  rewrite memcpy_to_in_bounds by (rewrite ?length_fmap; lia).
  cbn [put]. rewrite xlen_wrap_small
    by (unfold INT_MAX, R_XLEN_T_MAX in *; lia).
  rewrite fmap_take. reflexivity.
Qed.

Lemma same_outcome_refl {A} (r : res state A) : same_outcome r r.
Proof. destruct r; cbn; auto. Qed.

Lemma same_outcome_trans {A} (r1 r2 r3 : res state A) :
  same_outcome r1 r2 -> same_outcome r2 r3 -> same_outcome r1 r3.
Proof.
  destruct r1, r2, r3; cbn; try tauto.
  - intros [-> ->] [-> ->]. auto.
  - intros [-> ->] [-> ->]. auto.
Qed.

(** An empty bulk append changes nothing. *)
Lemma write_bytes_nil (fuel : nat) (s : state) :
  buffer_inv (buf s) -> write_bytes fuel [] 0 s = Ok tt s.
Proof.
  intros Hinv. pose proof Hinv as (Hpos & Hmax & Hdata).
  rewrite write_bytes_eq by (assumption || (unfold is_int, INT_MAX; lia)).
  unfold bind, expand_until. rewrite expand_while_eq.
  destruct (Z.gtb_spec (pos (buf s) + 0) (length (buf s))); [lia |].
  rewrite store_bytes_in_bounds
    by (assumption || (unfold INT_MAX; cbn; lia)).
  f_equal. rewrite Z.add_0_r, take_nil, fmap_nil, app_nil_l, take_drop.
  destruct s as [[] ?]. reflexivity.
Qed.

(** A bulk append of [b :: l] is the single append of [b] followed by the
    bulk append of [l]. *)
Lemma write_bytes_cons (fuel : nat) (b : byte) (l : list byte) (s : state) :
  growable (buf s) -> (53 <= fuel)%nat ->
  Z.of_nat (List.length (b :: l)) <= INT_MAX ->
  same_outcome
    (write_bytes fuel (b :: l) (Z.of_nat (List.length (b :: l))) s)
    ((write_byte fuel (int_of_uchar b) ;;
      write_bytes fuel l (Z.of_nat (List.length l))) s).
Proof.
  intros Hg Hfuel Hlen. pose proof Hg as [Hinv Hcap].
  pose proof (doublings_left_le _ Hg) as Hleft.
  cbn [List.length] in *. rewrite Nat2Z.inj_succ in *.
  set (n := Z.of_nat (List.length l)) in *.
  set (p := pos (buf s)).
  rewrite write_bytes_eq by (assumption || (unfold is_int, INT_MAX in *; lia)).
  fold p. unfold bind. rewrite write_byte_eq by assumption. fold p.
  rewrite (expand_until_split fuel fuel fuel (p + 1) (p + Z.succ n))
    by (assumption || lia).
  unfold bind.
  destruct (expand_until fuel (p + 1) s) as [[] s1 | e s1 | |] eqn:Hloop1;
    [| now split | exact I | exact I].
  apply expand_while_ok in Hloop1 as (Hinv1 & Hext1 & Hc1); [| assumption].
  rewrite Z.gtb_ltb in Hc1. apply Z.ltb_ge in Hc1.
  pose proof Hext1 as (Hp1 & _). fold p in Hp1.
  pose proof Hinv as (Hpos & _ & _). fold p in Hpos.
  pose proof Hinv1 as (_ & Hmax1 & Hdata1).
  rewrite store_byte_in_bounds by (assumption || lia).
  rewrite Hp1, uchar_of_int_of_uchar.
  set (T := store_at (Z.to_nat p) (Some b) (p + 1)).
  assert (HinvT : buffer_inv (buf (T s1)))
    by (apply store_at_inv; [assumption | lia]).
  rewrite write_bytes_eq
    by (assumption || (unfold is_int, INT_MAX in *; lia)).
  change (pos (buf (T s1))) with (p + 1).
  unfold bind, T. rewrite expand_until_store_at by (assumption || lia).
  fold T. replace (p + 1 + n) with (p + Z.succ n) by lia.
  destruct (expand_until fuel (p + Z.succ n) s1) as [[] s2 | e s2 | |]
    eqn:Hloop2; cbn [res_map]; [| now split | exact I | exact I].
  apply expand_while_ok in Hloop2 as (Hinv2 & Hext2 & Hc2); [| assumption].
  rewrite Z.gtb_ltb in Hc2. apply Z.ltb_ge in Hc2.
  pose proof Hext2 as (Hp2 & _). rewrite Hp1 in Hp2.
  pose proof Hinv2 as (_ & Hmax2 & Hdata2).
  assert (HinvT2 : buffer_inv (buf (T s2)))
    by (apply store_at_inv; [assumption | lia]).
  rewrite !store_bytes_in_bounds;
    try assumption;
    try (cbn [List.length]; unfold n, INT_MAX in *; lia);
    [| change (pos (buf (T s2))) with (p + 1);
       change (length (buf (T s2))) with (length (buf s2)); lia].
  split; [reflexivity |]. rewrite Hp2.
  change (pos (buf (T s2))) with (p + 1).
  unfold T, store_at, set_pos, set_data. cbn [buf heap length pos data].
  f_equal. f_equal; [lia |].
  replace (Z.to_nat (p + 1)) with (S (Z.to_nat p)) by lia.
  erewrite take_S_r by (apply list_lookup_insert_eq; lia).
  rewrite take_insert_ge by lia.
  replace (Z.to_nat (p + 1 + n)) with (Z.to_nat (p + Z.succ n)) by lia.
  rewrite drop_insert_lt by lia.
  replace (Z.to_nat (Z.succ n)) with (S (Z.to_nat n)) by lia.
  cbn [take fmap list_fmap]. rewrite <- app_assoc. reflexivity.
Qed.

Lemma same_outcome_bind {A B} (m : M state A) (k1 k2 : A -> M state B)
    (s : state) :
  (forall a s1, m s = Ok a s1 -> same_outcome (k1 a s1) (k2 a s1)) ->
  same_outcome (bind m k1 s) (bind m k2 s).
Proof.
  intros Hk. unfold bind. destruct (m s) as [a s1 | e s1 | |]; cbn; auto.
Qed.

Lemma write_each_same (fuel : nat) (src : list byte) (s : state) :
  growable (buf s) -> (53 <= fuel)%nat ->
  Z.of_nat (List.length src) <= INT_MAX ->
  same_outcome
    (write_bytes fuel src (Z.of_nat (List.length src)) s)
    (write_each fuel src s).
Proof.
  intros Hg Hfuel. revert s Hg.
  induction src as [| b l IH]; intros s Hg Hlen.
  - cbn [List.length write_each Z.of_nat].
    rewrite write_bytes_nil by apply Hg. cbn. auto.
  - eapply same_outcome_trans; [now apply write_bytes_cons |].
    cbn [write_each]. apply same_outcome_bind. intros [] s1 Hw.
    destruct Hg as [Hinv Hcap].
    destruct (write_byte_appends _ _ _ _ Hinv Hw) as (Hinv1 & _ & _ & Hle & _).
    apply IH; [split; [assumption | lia] |].
    cbn [List.length] in Hlen. lia.
Qed.

(** An empty capacity stays empty under doubling: a loop whose condition
    holds of it never returns, whatever the condition is. *)
Lemma expand_while_empty (fuel : nat) (c1 c2 : buffer -> bool) (s : state) :
  buffer_inv (buf s) -> length (buf s) = 0 ->
  c1 (buf s) = true -> c2 (buf s) = true ->
  expand_while fuel c1 s = expand_while fuel c2 s /\
  forall s', expand_while fuel c1 s <> Ok tt s'.
Proof.
  revert s. induction fuel as [| fuel IH]; intros s Hinv Hlen H1 H2;
    rewrite !expand_while_eq, H1, H2; [split; [reflexivity | discriminate] |].
  unfold bind. expand_cases s Hinv;
    try (split; [reflexivity | discriminate]).
  assert (Hsame : buf (doubled s) = buf s).
  { destruct Hinv as (_ & _ & Hdata).
    destruct s as [[len p d] h]. unfold doubled.
    cbn [buf length pos data] in *. rewrite Hlen in *.
    destruct d as [| x d]; [reflexivity | cbn [List.length] in Hdata; lia]. }
  apply IH; rewrite ?Hsame; assumption.
Qed.

(** C3. From any buffer that satisfies the invariant, the bulk append of
    [N] bytes and the [N] single appends of the same bytes end alike:
    when one returns so does the other, with the same buffer (capacity,
    position and every cell) and the same allocator, and when one raises
    the other raises the same error. [N] is any [int], however many
    growth steps it forces. *)
Theorem bulk_equals_bytewise (fuel : nat) (src : list byte) (s : state) :
  buffer_inv (buf s) -> (53 <= fuel)%nat ->
  Z.of_nat (List.length src) <= INT_MAX ->
  same_outcome
    (write_bytes fuel src (Z.of_nat (List.length src)) s)
    (write_each fuel src s) /\
  (forall s1 s2,
      write_bytes fuel src (Z.of_nat (List.length src)) s = Ok tt s1 ->
      write_each fuel src s = Ok tt s2 ->
      committed (buf s1) = committed (buf s2) /\
      pos (buf s1) = pos (buf s2)).
Proof.
  intros Hinv Hfuel Hlen.
  assert (Hsame : same_outcome
    (write_bytes fuel src (Z.of_nat (List.length src)) s)
    (write_each fuel src s)).
  { destruct (Z.eq_dec (length (buf s)) 0) as [Hzero | Hpos].
    - destruct src as [| b l].
      + cbn [List.length write_each Z.of_nat].
        rewrite write_bytes_nil by assumption. cbn. auto.
      + pose proof Hinv as (Hp & _ & _).
        cbn [write_each]. unfold write_bytes, write_byte, bind.
        destruct (expand_while_empty fuel
                    (fun b0 => xlen_wrap
                       (pos b0 + Z.of_nat (List.length (b :: l))) >? length b0)
                    (fun b0 => pos b0 >=? length b0) s Hinv Hzero)
          as [Heq Hnever].
        * rewrite Hzero. replace (pos (buf s)) with 0 by lia.
          rewrite xlen_wrap_small
            by (cbn [List.length] in *; unfold INT_MAX in *; lia).
          cbn [List.length]. apply Z.gtb_lt. lia.
        * rewrite Hzero. apply Z.geb_le. lia.
        * rewrite <- Heq.
          destruct (expand_while fuel _ s) as [[] s1 | e s1 | |];
            cbn; auto.
          now destruct (Hnever s1).
    - apply write_each_same; try assumption.
      split; [assumption |]. destruct Hinv as (? & _). lia. }
  split; [exact Hsame |].
  intros s1 s2 H1 H2. rewrite H1, H2 in Hsame.
  destruct Hsame as [_ ->]. auto.
Qed.

Lemma bulk_equals_bytewise_witness :
  exists s',
    write_bytes 64 (replicate 40 "q"%byte) 40 Example.empty4 = Ok tt s' /\
    write_each 64 (replicate 40 "q"%byte) Example.empty4 = Ok tt s' /\
    length (buf s') = 64 /\ pos (buf s') = 40 /\
    same_outcome
      (write_bytes 64 (replicate 40 "q"%byte) 40 Example.empty4)
      (write_each 64 (replicate 40 "q"%byte) Example.empty4).
Proof.
  assert (Hg : buffer_inv (buf Example.empty4))
    by (unfold buffer_inv, R_XLEN_T_MAX; cbn; lia).
  assert (Hfuel : (53 <= 64)%nat) by lia.
  assert (Hlen : Z.of_nat (List.length (replicate 40 "q"%byte)) <= INT_MAX)
    by (rewrite length_replicate; unfold INT_MAX; lia).
  pose proof (bulk_equals_bytewise 64 (replicate 40 "q"%byte) Example.empty4
                Hg Hfuel Hlen) as [Hsame _].
  rewrite length_replicate in Hsame.
  eexists. split; [vm_compute; reflexivity |].
  split; [vm_compute; reflexivity |].
  split; [reflexivity |]. split; [reflexivity |].
  exact Hsame.
Defined.

(** ** The engine on the buffer and on an ideal stream *)

Lemma appends_nil (s : state) : buffer_inv (buf s) -> appends s [] s.
Proof.
  intros Hinv. unfold appends. cbn [List.length fmap list_fmap].
  rewrite app_nil_r, Z.add_0_r.
  split; [assumption | repeat split; lia].
Qed.

Lemma appends_trans (s1 s2 s3 : state) (b1 b2 : list byte) :
  appends s1 b1 s2 -> appends s2 b2 s3 -> appends s1 (b1 ++ b2) s3.
Proof.
  intros (_ & Hp1 & Hc1 & Hl1 & Hh1) (Hinv3 & Hp2 & Hc2 & Hl2 & Hh2).
  unfold appends. rewrite length_app, fmap_app, app_assoc, <- Hc1, <- Hc2.
  repeat split; try (assumption || lia || congruence); apply Hinv3.
Qed.

Lemma emitted_typed (e : encoder) (bytes : list byte) :
  emitted e = Some bytes -> encoder_typed e.
Proof.
  revert bytes. induction e as [| | c k IH | src n k IH]; intros bytes;
    cbn [emitted encoder_typed]; auto.
  - destruct (emitted k) as [bs |]; [eauto | discriminate].
  - destruct (Z.leb_spec 0 n), (Z.leb_spec n INT_MAX),
      (Z.leb_spec n (Z.of_nat (List.length src)));
      cbn [andb]; try discriminate.
    destruct (emitted k) as [bs |]; [| discriminate].
    intros _. split; [unfold is_int; lia | eauto].
Qed.

(** An encoder run that returns has appended what it emits. *)
Lemma run_encoder_ok (fuel : nat) (e : encoder) (s s' : state) :
  buffer_inv (buf s) -> encoder_typed e ->
  run_encoder fuel e s = Ok tt s' ->
  exists bytes, emitted e = Some bytes /\ appends s bytes s'.
Proof.
  revert s. induction e as [| | c k IH | src n k IH]; intros s Hinv Hty;
    cbn [run_encoder emitted encoder_typed] in *.
  - intros [= <-]. exists []. auto using appends_nil.
  - discriminate.
  - unfold bind.
    destruct (write_byte fuel c s) as [[] s1 | | |] eqn:Hw; try discriminate.
    intros Hrun.
    pose proof (write_byte_appends _ _ _ _ Hinv Hw) as Happ.
    destruct (IH s1 (proj1 Happ) Hty Hrun) as (bytes & -> & Happ').
    exists (uchar_of_int c :: bytes). split; [reflexivity |].
    exact (appends_trans _ _ _ [_] _ Happ Happ').
  - destruct Hty as [Hn Hty]. unfold bind.
    destruct (write_bytes fuel src n s) as [[] s1 | | |] eqn:Hw;
      try discriminate.
    intros Hrun.
    destruct (write_bytes_appends _ _ _ _ _ Hinv Hn Hw) as [Hsrc Happ].
    destruct (IH s1 (proj1 Happ) Hty Hrun) as (bytes & -> & Happ').
    exists (take (Z.to_nat n) src ++ bytes).
    destruct (Z.leb_spec 0 n), (Z.leb_spec n INT_MAX),
      (Z.leb_spec n (Z.of_nat (List.length src)));
      try (unfold is_int in Hn; lia).
    split; [reflexivity |]. exact (appends_trans _ _ _ _ _ Happ Happ').
Qed.

Lemma written_fmap_Some (bytes : list byte) :
  written (Some <$> bytes) = Some bytes.
Proof. unfold written. now apply mapM_fmap_Some. Qed.

(** A decoder run over a reader does what it does on the ideal source. *)
Lemma run_decoder_consume {A} (d : decoder A) (s : state) (vec : list byte)
    (a : A) :
  views (buf s) vec ->
  consume d (drop (Z.to_nat (pos (buf s))) vec) = Some a ->
  exists s', run_decoder d s = Ok a s' /\ heap s' = heap s.
Proof.
  revert s. induction d as [a0 | | k IH | n k IH]; intros s Hv;
    cbn [consume run_decoder].
  - intros [= ->]. exists s. auto.
  - discriminate.
  - pose proof Hv as [(Hpos & Hmax & Hdata) Hvec].
    rewrite Hvec, length_fmap in Hdata.
    destruct (drop _ vec) as [| b rest] eqn:Hdrop; [discriminate |].
    intros Hrest.
    assert (Hlt : pos (buf s) < length (buf s)).
    { apply (f_equal (@List.length byte)) in Hdrop.
      rewrite length_drop in Hdrop. cbn in Hdrop. lia. }
    destruct (read_byte_next s vec Hv Hlt) as (b' & Hb' & Hrd).
    assert (b' = b) as ->.
    { apply (f_equal (fun l => l !! 0%nat)) in Hdrop.
      rewrite lookup_drop, Nat.add_0_r, Hb' in Hdrop. now injection Hdrop. }
    unfold bind. rewrite Hrd.
    destruct (IH (int_of_uchar b) (set_pos (pos (buf s) + 1) s)) as (s' & Hrun & Hh).
    + split; [| exact Hvec].
      unfold buffer_inv. cbn [buf set_pos pos length data].
      rewrite Hvec, length_fmap. lia.
    + cbn [buf set_pos pos].
      replace (Z.to_nat (pos (buf s) + 1)) with (S (Z.to_nat (pos (buf s))))
        by lia.
      rewrite <- Hrest. f_equal.
      change (S (Z.to_nat (pos (buf s)))) with (1 + Z.to_nat (pos (buf s)))%nat.
      rewrite Nat.add_comm, <- drop_drop, Hdrop. reflexivity.
    + exists s'. split; [exact Hrun | exact Hh].
  - pose proof Hv as [Hinv Hvec]. pose proof Hinv as (Hpos & Hmax & Hdata).
    rewrite Hvec, length_fmap in Hdata.
    destruct (Z.leb_spec 0 n), (Z.leb_spec n INT_MAX),
      (Z.leb_spec n (Z.of_nat (List.length (drop (Z.to_nat (pos (buf s))) vec))));
      cbn [andb]; try discriminate.
    intros Hrest. rewrite length_drop in *.
    unfold bind. rewrite read_bytes_in_bounds by (assumption || lia).
    rewrite Hvec, <- fmap_drop, <- fmap_take, written_fmap_Some.
    destruct (IH (take (Z.to_nat n) (drop (Z.to_nat (pos (buf s))) vec))
                (set_pos (pos (buf s) + n) s)) as (s' & Hrun & Hh).
    + split; [| exact Hvec].
      unfold buffer_inv. cbn [buf set_pos pos length data].
      rewrite Hvec, length_fmap. lia.
    + cbn [buf set_pos pos]. rewrite <- Hrest. f_equal.
      rewrite drop_drop. f_equal. lia.
    + exists s'. split; [exact Hrun | exact Hh].
Qed.

Lemma run_counter_total (e : encoder) (bytes : list byte) (k : counting_sink) :
  emitted e = Some bytes ->
  run_counter e k =
    Ok tt (mkcounting_sink (total k + Z.of_nat (List.length bytes))).
Proof.
  revert bytes k. induction e as [| | c e IH | src n e IH]; intros bytes k;
    cbn [emitted run_counter].
  - intros [= <-]. destruct k. cbn. now rewrite Z.add_0_r.
  - discriminate.
  - destruct (emitted e) as [bs |]; [| discriminate].
    intros [= <-]. unfold bind, count_byte. rewrite (IH bs) by reflexivity.
    cbn [total List.length]. do 2 f_equal. lia.
  - destruct (Z.leb_spec 0 n), (Z.leb_spec n INT_MAX),
      (Z.leb_spec n (Z.of_nat (List.length src)));
      cbn [andb]; try discriminate.
    destruct (emitted e) as [bs |]; [| discriminate].
    intros [= <-]. unfold bind, count_bytes. rewrite (IH bs) by reflexivity.
    cbn [total]. rewrite length_app, length_take. do 2 f_equal. lia.
Qed.

Lemma allocVector_spec (n : Z) (h : allocator) :
  0 <= n <= R_XLEN_T_MAX ->
  allocVector n h =
    if hd true (oracle h)
    then Ok tt (mkallocator (live h) (tl (oracle h)))
    else Raise AllocationFailure (mkallocator (live h) (tl (oracle h))).
Proof.
  intros Hn. unfold allocVector.
  destruct (Z.leb_spec 0 n), (Z.leb_spec n R_XLEN_T_MAX); (reflexivity || lia).
Qed.

Section PackUnpack.

Context {robject : Type}.
Variable R_Serialize : SEXP robject -> encoder.
Variable R_Unserialize : decoder (SEXP robject).

(** What [pack_] returns is the stream its encoder emits, and both of
    its blocks are freed by then. *)
Lemma pack_ok fuel robj h r h' :
  encoder_typed (R_Serialize robj) ->
  pack_ R_Serialize fuel robj h = Ok r h' ->
  exists bytes,
    r = RAWSXP bytes /\
    emitted (R_Serialize robj) = Some bytes /\
    Z.of_nat (List.length bytes) <= R_XLEN_T_MAX /\
    live h' = live h.
Proof.
  intros Hty. unfold pack_, bind at 1.
  destruct (init_buffer 16384 h) as [b h1 | | |] eqn:Hinit;
    try discriminate.
  assert (Hint : is_int 16384) by (unfold is_int, INT_MAX; lia).
  pose proof (init_buffer_inv _ _ _ _ Hint Hinit) as Hinv.
  destruct (init_buffer_ok _ _ _ _ Hint Hinit) as (_ & Hb & Hlive).
  unfold bind at 1, with_buffer.
  destruct (run_encoder fuel (R_Serialize robj) (mkstate b h1))
    as [[] s' | | |] eqn:Hrun; try discriminate.
  destruct (run_encoder_ok _ _ (mkstate b h1) _ Hinv Hty Hrun)
    as (bytes & Hem & Hinv' & Hp & Hc & _ & Hlive').
  cbn [snd buf heap] in *.
  assert (Hpos0 : pos b = 0) by (rewrite Hb; reflexivity).
  assert (Hc0 : committed b = []) by (unfold committed; now rewrite Hpos0).
  rewrite Hpos0 in Hp. rewrite Hc0 in Hc. cbn [app] in Hc.
  pose proof Hinv' as (Hpos' & Hmax' & Hdata').
  unfold bind at 1. rewrite allocVector_spec by lia.
  destruct (hd true (oracle (heap s'))); [| discriminate].
  rewrite size_of_int_small by (unfold R_XLEN_T_MAX in *; lia).
  rewrite memcpy_from_in_bounds by lia.
  change (Z.to_nat 0) with 0%nat. rewrite drop_0.
  fold (committed (buf s')). rewrite Hc, written_fmap_Some.
  unfold bind, free. cbn [live oracle]. rewrite Hlive', Hlive.
  cbn [live ret oracle].
  intros [= <- <-]. exists bytes. cbn [live].
  repeat split; (reflexivity || assumption || lia).
Qed.

(** [unpack_] over the bytes [vec] returns what its decoder makes of
    them, once its one allocation is served. *)
Lemma unpack_ok vec h v :
  Z.of_nat (List.length vec) <= R_XLEN_T_MAX ->
  hd true (oracle h) = true ->
  consume R_Unserialize vec = Some v ->
  unpack_ R_Unserialize (RAWSXP vec) h
    = Ok v (mkallocator (live h) (tl (oracle h))).
Proof.
  intros Hlen Hserved Hcons. unfold unpack_, bind at 1, malloc, served.
  rewrite Hserved. change (sizeof_buffer <? 2 ^ 63) with true. cbn [andb].
  unfold bind at 1, with_buffer. fold (reader_of vec).
  destruct (run_decoder_consume R_Unserialize
              (mkstate (reader_of vec)
                 (mkallocator (S (live h)) (tl (oracle h)))) vec v)
    as (s' & Hrun & Hh).
  - now apply reader_of_views.
  - exact Hcons.
  - rewrite Hrun. unfold bind, free. rewrite Hh. reflexivity.
Qed.

End PackUnpack.

(** ** When the writes succeed *)

Lemma plentiful_hd (h : allocator) : plentiful h -> hd true (oracle h) = true.
Proof.
  unfold plentiful. destruct (oracle h) as [| x o]; [reflexivity |].
  intros Hall. now apply Forall_cons in Hall as [-> _].
Qed.

Lemma plentiful_tl (h : allocator) (n : nat) :
  plentiful h -> plentiful (mkallocator n (tl (oracle h))).
Proof.
  unfold plentiful. cbn [oracle]. destruct (oracle h) as [| x o]; [auto |].
  intros Hall. now apply Forall_cons in Hall as [_ Hall].
Qed.

Lemma pow2_capacity_pos (b : buffer) : pow2_capacity b -> 0 < length b.
Proof. intros (j & Hj & ->). apply Z.pow_pos_nonneg; lia. Qed.

(** With memory to be had, the growth loop reaches any capacity that R
    can index. *)
Lemma expand_until_total (fuel : nat) (need : Z) (s : state) :
  buffer_inv (buf s) -> pow2_capacity (buf s) -> plentiful (heap s) ->
  need <= R_XLEN_T_MAX ->
  (doublings_left (buf s) <= fuel)%nat ->
  exists s',
    expand_until fuel need s = Ok tt s' /\
    pow2_capacity (buf s') /\ plentiful (heap s').
Proof.
  unfold expand_until.
  revert s. induction fuel as [| fuel IH]; intros s Hinv Hpow Hmem Hneed Hfuel;
    pose proof (pow2_capacity_pos _ Hpow) as Hcap;
    pose proof (doublings_left_pos _ (conj Hinv Hcap)) as Hleft; [lia |].
  rewrite expand_while_eq.
  destruct (Z.gtb_spec need (length (buf s))) as [Hgt | Hle]; [| eauto].
  destruct Hpow as (j & Hj & Hlen).
  assert (Hj1 : j < 52).
  { apply (Z.pow_lt_mono_r_iff 2); [lia | lia |].
    rewrite <- Hlen. rewrite R_XLEN_T_MAX_eq in Hneed. lia. }
  assert (Hdbl : 2 * length (buf s) <= R_XLEN_T_MAX).
  { rewrite Hlen, R_XLEN_T_MAX_eq, <- Z.pow_succ_r by lia.
    apply Z.pow_le_mono_r; lia. }
  unfold bind. expand_cases s Hinv; try lia.
  - apply IH.
    + now apply doubled_inv.
    + exists (Z.succ j). split; [lia |].
      unfold doubled. cbn [buf length]. rewrite Hlen, Z.pow_succ_r; lia.
    + unfold doubled. cbn [heap]. now apply plentiful_tl.
    + assumption.
    + rewrite doublings_left_doubled by assumption. lia.
  - rewrite plentiful_hd in * by assumption. discriminate.
Qed.

Lemma expand_until_ok (fuel : nat) (need : Z) (s s' : state) :
  buffer_inv (buf s) ->
  expand_until fuel need s = Ok tt s' ->
  buffer_inv (buf s') /\ extends s s' /\ need <= length (buf s').
Proof.
  intros Hinv Hloop. unfold expand_until in Hloop.
  apply expand_while_ok in Hloop as (Hinv' & Hext & Hc); [| assumption].
  rewrite Z.gtb_ltb in Hc. apply Z.ltb_ge in Hc. auto.
Qed.

Lemma write_byte_total (fuel : nat) (c : Z) (s : state) :
  buffer_inv (buf s) -> pow2_capacity (buf s) -> plentiful (heap s) ->
  pos (buf s) + 1 <= R_XLEN_T_MAX -> (53 <= fuel)%nat ->
  exists s',
    write_byte fuel c s = Ok tt s' /\
    pow2_capacity (buf s') /\ plentiful (heap s').
Proof.
  intros Hinv Hpow Hmem Hroom Hfuel.
  pose proof (doublings_left_le _ (conj Hinv (pow2_capacity_pos _ Hpow))).
  destruct (expand_until_total fuel (pos (buf s) + 1) s)
    as (s1 & Hloop & Hpow1 & Hmem1); try (assumption || lia).
  destruct (expand_until_ok _ _ _ _ Hinv Hloop) as (Hinv1 & (Hp & _) & Hfit).
  rewrite write_byte_eq by assumption. unfold bind. rewrite Hloop.
  rewrite store_byte_in_bounds by (assumption || lia).
  eexists. split; [reflexivity |]. split; assumption.
Qed.

Lemma write_bytes_total (fuel : nat) (src : list byte) (n : Z) (s : state) :
  buffer_inv (buf s) -> pow2_capacity (buf s) -> plentiful (heap s) ->
  0 <= n <= INT_MAX -> n <= Z.of_nat (List.length src) ->
  pos (buf s) + n <= R_XLEN_T_MAX -> (53 <= fuel)%nat ->
  exists s',
    write_bytes fuel src n s = Ok tt s' /\
    pow2_capacity (buf s') /\ plentiful (heap s').
Proof.
  intros Hinv Hpow Hmem Hn Hsrc Hroom Hfuel.
  pose proof (doublings_left_le _ (conj Hinv (pow2_capacity_pos _ Hpow))).
  destruct (expand_until_total fuel (pos (buf s) + n) s)
    as (s1 & Hloop & Hpow1 & Hmem1); try (assumption || lia).
  destruct (expand_until_ok _ _ _ _ Hinv Hloop) as (Hinv1 & (Hp & _) & Hfit).
  rewrite write_bytes_eq by (assumption || (unfold is_int; lia)).
  unfold bind. rewrite Hloop.
  rewrite store_bytes_in_bounds by (assumption || lia).
  eexists. split; [reflexivity |]. split; assumption.
Qed.

(** With memory to be had, the encoder of a stream that R can index runs
    to its end. *)
Lemma run_encoder_total (fuel : nat) (e : encoder) (bytes : list byte)
    (s : state) :
  emitted e = Some bytes ->
  buffer_inv (buf s) -> pow2_capacity (buf s) -> plentiful (heap s) ->
  pos (buf s) + Z.of_nat (List.length bytes) <= R_XLEN_T_MAX ->
  (53 <= fuel)%nat ->
  exists s', run_encoder fuel e s = Ok tt s' /\ plentiful (heap s').
Proof.
  intros Hem Hinv Hpow Hmem Hroom Hfuel. revert bytes s Hem Hinv Hpow Hmem Hroom.
  induction e as [| | c k IH | src n k IH];
    intros bytes s Hem Hinv Hpow Hmem Hroom; cbn [emitted run_encoder] in *.
  - eauto.
  - discriminate.
  - destruct (emitted k) as [bs |] eqn:Hk; [| discriminate].
    injection Hem as <-. cbn [List.length] in Hroom.
    destruct (write_byte_total fuel c s)
      as (s1 & Hw & Hpow1 & Hmem1); try (assumption || lia).
    destruct (write_byte_appends _ _ _ _ Hinv Hw) as (Hinv1 & Hp1 & _).
    cbn [List.length] in Hp1.
    unfold bind. rewrite Hw. apply (IH bs); try assumption; [reflexivity | lia].
  - destruct (Z.leb_spec 0 n), (Z.leb_spec n INT_MAX),
      (Z.leb_spec n (Z.of_nat (List.length src)));
      cbn [andb] in Hem; try discriminate.
    destruct (emitted k) as [bs |] eqn:Hk; [| discriminate].
    injection Hem as <-. rewrite length_app, length_take in Hroom.
    destruct (write_bytes_total fuel src n s)
      as (s1 & Hw & Hpow1 & Hmem1); try (assumption || lia).
    assert (Hn : is_int n) by (unfold is_int; lia).
    destruct (write_bytes_appends _ _ _ _ _ Hinv Hn Hw)
      as (_ & Hinv1 & Hp1 & _).
    rewrite length_take in Hp1.
    unfold bind. rewrite Hw. apply (IH bs); try assumption; [reflexivity | lia].
Qed.

(** With memory to be had, [pack_] returns the stream of any value whose
    encoding R can index. *)
Lemma pack_total
    (robject : Type) (R_Serialize : SEXP robject -> encoder)
    (fuel : nat) (robj : SEXP robject) (bytes : list byte) (h : allocator) :
  emitted (R_Serialize robj) = Some bytes ->
  Z.of_nat (List.length bytes) <= R_XLEN_T_MAX ->
  plentiful h -> (53 <= fuel)%nat ->
  exists h1,
    pack_ R_Serialize fuel robj h = Ok (RAWSXP bytes) h1 /\ plentiful h1.
Proof.
  intros Hem Hlen Hmem Hfuel.
  set (h1 := mkallocator (S (S (live h))) (tl (tl (oracle h)))).
  set (b := mkbuffer 16384 0 (replicate (Z.to_nat 16384) None)).
  assert (Hmem1 : plentiful h1)
    by (apply (plentiful_tl (mkallocator 0 (tl (oracle h))));
        now apply plentiful_tl).
  assert (Hinit : init_buffer 16384 h = Ok b h1).
  { unfold init_buffer, bind, malloc, served.
    rewrite (plentiful_hd h Hmem).
    change (sizeof_buffer <? 2 ^ 63) with true. cbn [andb oracle].
    pose proof (plentiful_hd _ (plentiful_tl h 0 Hmem)) as Hnext.
    cbn [oracle] in Hnext. rewrite Hnext. reflexivity. }
  assert (Hinv : buffer_inv b)
    by (apply (init_buffer_inv 16384 h h1);
        [unfold is_int, INT_MAX; lia | exact Hinit]).
  destruct (run_encoder_total fuel (R_Serialize robj) bytes (mkstate b h1))
    as (s' & Hrun & Hmem'); try assumption.
  { exists 14. split; [lia | reflexivity]. }
  destruct (run_encoder_ok fuel _ (mkstate b h1) s' Hinv
              (emitted_typed _ _ Hem) Hrun)
    as (bytes' & Hem' & Hinv' & Hp & Hc & _ & Hlive').
  assert (bytes' = bytes) as -> by congruence.
  exists (mkallocator (live h) (tl (oracle (heap s')))).
  split; [| now apply plentiful_tl].
  unfold pack_, bind at 1. rewrite Hinit.
  unfold bind at 1, with_buffer. rewrite Hrun. cbn [snd buf heap] in *.
  change (pos b) with 0 in Hp. change (committed b) with (@nil cell) in Hc.
  cbn [app] in Hc. pose proof Hinv' as (Hpos' & Hmax' & Hdata').
  unfold bind at 1. rewrite allocVector_spec by lia.
  rewrite (plentiful_hd _ Hmem').
  rewrite size_of_int_small by (unfold R_XLEN_T_MAX in *; lia).
  rewrite memcpy_from_in_bounds by lia.
  change (Z.to_nat 0) with 0%nat. rewrite drop_0.
  fold (committed (buf s')). rewrite Hc, written_fmap_Some.
  unfold bind, free. cbn [live oracle]. rewrite Hlive'. reflexivity.
Qed.

(** ** Round trip *)

(** C1. Let the engine encode [v] as [bytes] and decode [bytes] to a
    value [v'] equivalent to [v], both over an ideal stream. Then
    whatever [pack_] returns for [v] is a raw vector on which [unpack_]
    returns [v'], as soon as the one allocation of [unpack_] is served;
    and when the allocator serves every request and R can index
    [bytes], [pack_] does return and [unpack_] of its result returns
    [v']. Either way the calls leave no block allocated. *)
Theorem pack_unpack_round_trip
    (robject : Type)
    (R_Serialize : SEXP robject -> encoder)
    (R_Unserialize : decoder (SEXP robject))
    (equiv : SEXP robject -> SEXP robject -> Prop)
    (fuel : nat) (v v' : SEXP robject) (bytes : list byte) :
  emitted (R_Serialize v) = Some bytes ->
  consume R_Unserialize bytes = Some v' ->
  equiv v v' ->
  (forall h r h1,
      pack_ R_Serialize fuel v h = Ok r h1 ->
      hd true (oracle h1) = true ->
      exists w h2,
        unpack_ R_Unserialize r h1 = Ok w h2 /\ equiv v w /\
        live h2 = live h) /\
  (forall h,
      Z.of_nat (List.length bytes) <= R_XLEN_T_MAX ->
      plentiful h -> (53 <= fuel)%nat ->
      exists r h1 w h2,
        pack_ R_Serialize fuel v h = Ok r h1 /\
        unpack_ R_Unserialize r h1 = Ok w h2 /\ equiv v w /\
        live h2 = live h).
Proof.
  intros Hem Hcons Heq.
  assert (Hcond : forall h r h1,
    pack_ R_Serialize fuel v h = Ok r h1 ->
    hd true (oracle h1) = true ->
    exists w h2,
      unpack_ R_Unserialize r h1 = Ok w h2 /\ equiv v w /\ live h2 = live h).
  { intros h r h1 Hpack Hserved.
    destruct (pack_ok R_Serialize fuel v h r h1 (emitted_typed _ _ Hem) Hpack)
      as (bytes' & -> & Hem' & Hlen & Hlive).
    assert (bytes' = bytes) as -> by congruence.
    exists v', (mkallocator (live h1) (tl (oracle h1))).
    split; [now apply unpack_ok | split; [assumption | exact Hlive]]. }
  split; [exact Hcond |].
  intros h Hlen Hmem Hfuel.
  destruct (pack_total robject R_Serialize fuel v bytes h Hem Hlen Hmem Hfuel)
    as (h1 & Hpack & Hmem1).
  destruct (Hcond h _ h1 Hpack (plentiful_hd _ Hmem1)) as (w & h2 & Hun).
  exists (RAWSXP bytes), h1, w, h2. auto.
Qed.

Lemma pack_unpack_round_trip_witness :
  exists r h1 w h2,
    pack_ Toy.serialize 64 (RAWSXP ["a"; "b"; "c"]%byte) Toy.fresh = Ok r h1 /\
    unpack_ Toy.unserialize r h1 = Ok w h2 /\
    RAWSXP ["a"; "b"; "c"]%byte = w /\ live h2 = live Toy.fresh.
Proof.
  apply (proj2 (pack_unpack_round_trip unit Toy.serialize Toy.unserialize eq
                  64 (RAWSXP ["a"; "b"; "c"]%byte)
                  (RAWSXP ["a"; "b"; "c"]%byte)
                  ["003"; "a"; "b"; "c"]%byte eq_refl eq_refl eq_refl)
           Toy.fresh).
  - unfold R_XLEN_T_MAX. cbn. lia.
  - constructor.
  - lia.
Defined.

(** ** Size agreement *)

(** C2. Modelled from the spec for [measure]. Whenever [pack_] returns a
    raw vector for [v], [measure] returns the length of that vector, and
    it leaves the allocator as it found it: no request was made. *)
Theorem measure_agrees_with_pack
    (robject : Type) (R_Serialize : SEXP robject -> encoder)
    (fuel : nat) (v : SEXP robject) (h h1 : allocator) (bytes : list byte) :
  encoder_typed (R_Serialize v) ->
  pack_ R_Serialize fuel v h = Ok (RAWSXP bytes) h1 ->
  measure R_Serialize v h = Ok (Z.of_nat (List.length bytes)) h.
Proof.
  intros Hty Hpack.
  destruct (pack_ok R_Serialize fuel v h _ h1 Hty Hpack)
    as (bytes' & [= <-] & Hem & _).
  unfold measure. rewrite (run_counter_total _ bytes) by assumption.
  reflexivity.
Qed.

Lemma measure_agrees_with_pack_witness :
  measure Toy.serialize (RAWSXP ["a"; "b"; "c"]%byte) Toy.fresh
    = Ok 4 Toy.fresh.
Proof.
  apply (measure_agrees_with_pack unit Toy.serialize 64
           (RAWSXP ["a"; "b"; "c"]%byte) Toy.fresh Toy.fresh
           ["003"; "a"; "b"; "c"]%byte).
  - cbn. unfold is_int, INT_MAX. lia.
  - vm_compute. reflexivity.
Defined.

(** ** Fuel *)

(** With fuel for the doublings a capacity has left, the growth loop
    never stops for want of fuel. *)
Lemma expand_while_terminates (fuel : nat) (cond : buffer -> bool) (s : state) :
  growable (buf s) -> (doublings_left (buf s) <= fuel)%nat ->
  expand_while fuel cond s <> OutOfFuel.
Proof.
  revert s. induction fuel as [| fuel IH]; intros s Hg Hfuel;
    pose proof (doublings_left_pos _ Hg) as Hpos; [lia |].
  rewrite expand_while_eq. destruct (cond (buf s)); [| discriminate].
  unfold bind. pose proof Hg as [Hinv Hcap].
  expand_cases s Hinv; try discriminate.
  assert (Hdbl : 2 * length (buf s) <= R_XLEN_T_MAX) by lia.
  apply IH; [now apply doubled_growable |].
  rewrite doublings_left_doubled by assumption. lia.
Qed.

Lemma write_byte_terminates (fuel : nat) (c : Z) (s : state) :
  growable (buf s) -> (53 <= fuel)%nat ->
  write_byte fuel c s <> OutOfFuel.
Proof.
  intros Hg Hfuel. pose proof (doublings_left_le _ Hg).
  unfold write_byte, bind.
  destruct (expand_while fuel _ s) as [[] s1 | | |] eqn:Hloop;
    try discriminate.
  - unfold store_byte, bind, get. now destruct (_ && _).
  - apply expand_while_terminates in Hloop; [contradiction | assumption | lia].
Qed.

Lemma write_bytes_terminates (fuel : nat) (src : list byte) (n : Z) (s : state) :
  growable (buf s) -> (53 <= fuel)%nat ->
  write_bytes fuel src n s <> OutOfFuel.
Proof.
  intros Hg Hfuel. pose proof (doublings_left_le _ Hg).
  unfold write_bytes, bind.
  destruct (expand_while fuel _ s) as [[] s1 | | |] eqn:Hloop;
    try discriminate.
  - unfold store_bytes, bind, get. now destruct (memcpy_to _ _ _ _).
  - apply expand_while_terminates in Hloop; [contradiction | assumption | lia].
Qed.

Lemma run_encoder_terminates (fuel : nat) (e : encoder) (s : state) :
  growable (buf s) -> encoder_typed e -> (53 <= fuel)%nat ->
  run_encoder fuel e s <> OutOfFuel.
Proof.
  intros Hg Hty Hfuel. revert s Hg.
  induction e as [| | c k IH | src n k IH]; intros s Hg;
    cbn [run_encoder encoder_typed] in *; try discriminate.
  - unfold bind.
    destruct (write_byte fuel c s) as [[] s1 | | |] eqn:Hw; try discriminate.
    + destruct Hg as [Hinv Hcap].
      destruct (write_byte_appends _ _ _ _ Hinv Hw) as (Hinv1 & _ & _ & Hle & _).
      apply IH; [assumption | split; [assumption | lia]].
    + now apply write_byte_terminates in Hw.
  - destruct Hty as [Hn Hty]. unfold bind.
    destruct (write_bytes fuel src n s) as [[] s1 | | |] eqn:Hw;
      try discriminate.
    + destruct Hg as [Hinv Hcap].
      destruct (write_bytes_appends _ _ _ _ _ Hinv Hn Hw)
        as (_ & Hinv1 & _ & _ & Hle & _).
      apply IH; [assumption | split; [assumption | lia]].
    + now apply write_bytes_terminates in Hw.
Qed.

(** [pack_] with fuel for 53 doublings never stops for want of fuel. *)
Lemma pack_terminates
    (robject : Type) (R_Serialize : SEXP robject -> encoder)
    (fuel : nat) (robj : SEXP robject) (h : allocator) :
  encoder_typed (R_Serialize robj) -> (53 <= fuel)%nat ->
  pack_ R_Serialize fuel robj h <> OutOfFuel.
Proof.
  intros Hty Hfuel. unfold pack_, bind at 1.
  destruct (init_buffer 16384 h) as [b h1 | | |] eqn:Hinit;
    try discriminate.
  - assert (Hint : is_int 16384) by (unfold is_int, INT_MAX; lia).
    pose proof (init_buffer_inv _ _ _ _ Hint Hinit) as Hinv.
    destruct (init_buffer_ok _ _ _ _ Hint Hinit) as (_ & Hb & _).
    unfold bind at 1, with_buffer.
    destruct (run_encoder fuel (R_Serialize robj) (mkstate b h1))
      as [[] s' | | |] eqn:Hrun; try discriminate.
    + cbn [snd]. unfold bind at 1, allocVector.
      destruct (_ && _); [| discriminate].
      destruct (memcpy_from _ _ _); [| discriminate].
      destruct (written _); [| discriminate].
      unfold bind, free. cbn [live oracle].
      destruct (live (heap s')) as [| [| n]]; discriminate.
    + exfalso. revert Hrun. apply run_encoder_terminates; try assumption.
      split; [assumption | rewrite Hb; cbn; lia].
  - unfold init_buffer, bind, malloc in Hinit.
    destruct (served sizeof_buffer h); [| discriminate].
    destruct (served _ _); discriminate.
Qed.

(** ** Storage on the failure paths *)

(** C9 (the code at its failing inputs). [unpack_] over the empty raw
    vector, with a decoder that starts by reading, raises
    [BufferUnderrun] and leaves its buffer structure allocated: one more
    live block than before the call. [pack_] whose second allocation
    fails raises [AllocationFailure] and leaves the first block
    allocated. A growth step that passes [R_XLEN_T_MAX] raises with both
    blocks allocated. Only the failure of [realloc] frees the two
    blocks, and the call of [error()] after it reads the structure it
    has just freed, so that path is undefined. *)
Theorem storage_leaks_on_failure (robject : Type) (n : nat) (o : list bool) :
  (forall k : Z -> decoder (SEXP robject),
      unpack_ (InChar k) (RAWSXP []) (mkallocator n (true :: o))
        = Raise BufferUnderrun (mkallocator (S n) o)) /\
  (forall k : list byte -> decoder (SEXP robject),
      unpack_ (InBytes 2 k) (RAWSXP []) (mkallocator n (true :: o))
        = Raise BufferUnderrun (mkallocator (S n) o)) /\
  (forall (R_Serialize : SEXP robject -> encoder) fuel robj,
      pack_ R_Serialize fuel robj (mkallocator n (true :: false :: o))
        = Raise AllocationFailure (mkallocator (S n) o)) /\
  (forall b,
      expand_buffer
        (mkstate (mkbuffer R_XLEN_T_MAX 0 b) (mkallocator (S (S n)) o))
        = Raise CapacityExceeded
            (mkstate (mkbuffer (2 * R_XLEN_T_MAX) 0 b)
               (mkallocator (S (S n)) o))) /\
  expand_buffer
    (mkstate (mkbuffer 4 0 (replicate 4 None))
       (mkallocator (S (S n)) (false :: o)))
    = Fault.
Proof.
  repeat split; reflexivity.
Qed.

(** * Further properties of the callbacks and the entry points *)

(** ** The reader leaves the storage alone *)

Lemma read_byte_keeps_storage (s : state) : keeps_storage s (read_byte s).
Proof.
  unfold read_byte, bind, get, keeps_storage, same_storage.
  destruct (pos (buf s) >=? length (buf s)); [cbn; auto |].
  destruct (0 <=? pos (buf s)); [| exact I].
  destruct (data (buf s) !! Z.to_nat (pos (buf s))) as [[b |] |];
    cbn; auto.
Qed.

Lemma read_bytes_keeps_storage (n : Z) (s : state) :
  keeps_storage s (read_bytes n s).
Proof.
  unfold read_bytes, bind, get, keeps_storage, same_storage.
  destruct (xlen_wrap (pos (buf s) + n) >? length (buf s)); [cbn; auto |].
  destruct (memcpy_from _ _ _); cbn; auto.
Qed.

Lemma same_storage_trans (s1 s2 s3 : state) :
  same_storage s1 s2 -> same_storage s2 s3 -> same_storage s1 s3.
Proof.
  unfold same_storage. intros (? & ? & ?) (? & ? & ?).
  repeat split; congruence.
Qed.

Lemma keeps_storage_step {A} (s1 s2 : state) (r : res state A) :
  same_storage s1 s2 -> keeps_storage s2 r -> keeps_storage s1 r.
Proof.
  intros H12. destruct r; cbn; eauto using same_storage_trans.
Qed.

(** X1. However a decoder run over [read_byte] and [read_bytes] ends, by
    a return or by an error, the block it reads, the recorded length and
    the allocator are as they were: the reader never writes to the bytes
    it views, never resizes and never allocates or frees. *)
Theorem decoder_run_keeps_storage {A} (d : decoder A) (s : state) :
  keeps_storage s (run_decoder d s).
Proof.
  revert s. induction d as [a | | k IH | n k IH]; intros s;
    cbn [run_decoder].
  - cbn. unfold same_storage. auto.
  - cbn. unfold same_storage. auto.
  - unfold bind. pose proof (read_byte_keeps_storage s) as Hrd.
    destruct (read_byte s) as [c s1 | e s1 | |]; cbn in Hrd |- *; auto.
    eapply keeps_storage_step; [exact Hrd | apply IH].
  - unfold bind. pose proof (read_bytes_keeps_storage n s) as Hrd.
    destruct (read_bytes n s) as [dst s1 | e s1 | |]; cbn in Hrd |- *; auto.
    destruct (written dst) as [bytes |]; [| exact I].
    eapply keeps_storage_step; [exact Hrd | apply IH].
Qed.

(** ** Reads compose *)

Lemma set_pos_inv (q : Z) (s : state) :
  buffer_inv (buf s) -> 0 <= q <= length (buf s) ->
  buffer_inv (buf (set_pos q s)).
Proof.
  unfold buffer_inv. cbn [buf set_pos length pos data]. tauto.
Qed.

(** X2. On a buffer that satisfies the invariant, one [read_bytes] of
    [n + m] bytes returns what a [read_bytes] of [n] followed by one of
    [m] return, end to end, and leaves the same state. When only the
    first [n] bytes are there, the single read raises with the cursor
    where it was, while the split reads raise with the cursor [n]
    further on. *)
Theorem read_bytes_split (s : state) (n m : Z) :
  buffer_inv (buf s) ->
  0 <= n -> 0 <= m -> n + m <= INT_MAX ->
  pos (buf s) + n <= length (buf s) ->
  exists d1 s1,
    read_bytes n s = Ok d1 s1 /\
    pos (buf s1) = pos (buf s) + n /\
    (pos (buf s) + n + m <= length (buf s) ->
     exists d2 s2,
       read_bytes m s1 = Ok d2 s2 /\
       read_bytes (n + m) s = Ok (d1 ++ d2) s2) /\
    (pos (buf s) + n + m > length (buf s) ->
     read_bytes m s1 = Raise BufferUnderrun s1 /\
     read_bytes (n + m) s = Raise BufferUnderrun s).
Proof.
  intros Hinv Hn Hm Hsum Hfit. pose proof Hinv as (Hpos & Hmax & Hdata).
  assert (Hinv1 : buffer_inv (buf (set_pos (pos (buf s) + n) s)))
    by (apply set_pos_inv; [assumption | lia]).
  do 2 eexists.
  split; [apply read_bytes_in_bounds; [assumption | lia | assumption] |].
  split; [reflexivity |]. split.
  - intros Hboth. do 2 eexists.
    split; [apply read_bytes_in_bounds; [assumption | lia |];
            cbn [buf set_pos pos length]; lia |].
    rewrite read_bytes_in_bounds by (assumption || lia).
    cbn [buf set_pos pos data length]. f_equal.
    + replace (Z.to_nat (n + m)) with (Z.to_nat n + Z.to_nat m)%nat by lia.
      rewrite <- take_take_drop, drop_drop. do 3 f_equal. lia.
    + unfold set_pos. cbn [buf heap length pos data]. do 2 f_equal. lia.
  - intros Hover. split.
    + apply read_bytes_underrun;
        [assumption | unfold is_int; lia | cbn [buf set_pos pos length]; lia].
    + apply read_bytes_underrun; [assumption | unfold is_int; lia | lia].
Qed.

Lemma read_bytes_split_witness :
  exists d1 s1 d2 s2,
    read_bytes 1 Example.wxyz = Ok d1 s1 /\
    read_bytes 2 s1 = Ok d2 s2 /\
    read_bytes 3 Example.wxyz = Ok (d1 ++ d2) s2.
Proof.
  assert (Hinv : buffer_inv (buf Example.wxyz))
    by (unfold buffer_inv, R_XLEN_T_MAX; cbn; lia).
  destruct (read_bytes_split Example.wxyz 1 2 Hinv)
    as (d1 & s1 & H1 & _ & Hboth & _);
    try (unfold INT_MAX; cbn; lia).
  destruct Hboth as (d2 & s2 & H2 & H3); [cbn; lia |].
  exists d1, s1, d2, s2. auto.
Defined.

(** X3. On a reader with a byte left, [read_byte] and [read_bytes] of
    length one return the same byte (the one as an [int], the other as
    the one cell copied) and leave the same state. *)
Theorem read_byte_is_read_bytes_one (s : state) (vec : list byte) :
  views (buf s) vec -> pos (buf s) < length (buf s) ->
  exists b s',
    vec !! Z.to_nat (pos (buf s)) = Some b /\
    read_byte s = Ok (int_of_uchar b) s' /\
    read_bytes 1 s = Ok [Some b] s'.
Proof.
  intros Hv Hlt. destruct (read_byte_next s vec Hv Hlt) as (b & Hb & Hrd).
  destruct Hv as [Hinv Hvec]. pose proof Hinv as (Hpos & Hmax & Hdata).
  exists b, (set_pos (pos (buf s) + 1) s).
  split; [exact Hb | split; [exact Hrd |]].
  rewrite read_bytes_in_bounds by (assumption || (unfold INT_MAX; lia)).
  f_equal. rewrite Hvec.
  change (Z.to_nat 1) with 1%nat.
  erewrite drop_S by (rewrite list_lookup_fmap, Hb; reflexivity).
  reflexivity.
Qed.

Lemma read_byte_is_read_bytes_one_witness :
  exists s',
    read_byte Example.wxyz = Ok 120 s' /\
    read_bytes 1 Example.wxyz = Ok [Some "x"%byte] s'.
Proof.
  assert (Hv : views (buf Example.wxyz) ["w"; "x"; "y"; "z"]%byte).
  { unfold views, buffer_inv, R_XLEN_T_MAX. cbn. repeat split; lia. }
  assert (Hlt : pos (buf Example.wxyz) < length (buf Example.wxyz))
    by (cbn; lia).
  destruct (read_byte_is_read_bytes_one Example.wxyz _ Hv Hlt)
    as (b & s' & Hb & Hrd & Hrds).
  cbn in Hb. injection Hb as <-.
  exists s'. split; [exact Hrd | exact Hrds].
Defined.

(** ** No access outside the block *)

(** With a positive capacity and memory to be had, the growth loop
    never reaches undefined behaviour. *)
Lemma expand_while_no_fault (fuel : nat) (cond : buffer -> bool) (s : state) :
  growable (buf s) -> plentiful (heap s) ->
  expand_while fuel cond s <> Fault.
Proof.
  revert s. induction fuel as [| fuel IH]; intros s Hg Hmem;
    rewrite expand_while_eq; destruct (cond (buf s)); try discriminate.
  pose proof Hg as [Hinv Hcap].
  unfold bind. expand_cases s Hinv; try discriminate; try lia.
  - apply IH; [apply doubled_growable; [assumption | lia] |].
    unfold doubled. cbn [heap]. now apply plentiful_tl.
  - rewrite plentiful_hd in * by assumption. discriminate.
Qed.

(** X4. On a buffer that satisfies the invariant, the callbacks stay
    inside the block and reach no undefined behaviour in these cases: a
    write whose bytes fit in the capacity, always; a write that has to
    grow, when the capacity is positive and the allocator serves every
    request; [read_bytes] for a length that is not negative;
    [read_byte] on a block whose cells were all written. A bulk write
    whose bytes fit leaves the allocator and the capacity as they
    were. Outside these cases a write can be undefined: growth from an
    empty capacity or with [realloc] failing ends in [Fault]. *)
Theorem callbacks_stay_in_bounds :
  (forall fuel c s,
      buffer_inv (buf s) ->
      pos (buf s) < length (buf s) \/
      (0 < length (buf s) /\ plentiful (heap s)) ->
      write_byte fuel c s <> Fault) /\
  (forall fuel src n s,
      buffer_inv (buf s) ->
      0 <= n <= INT_MAX -> n <= Z.of_nat (List.length src) ->
      pos (buf s) + n <= length (buf s) \/
      (0 < length (buf s) /\ plentiful (heap s)) ->
      write_bytes fuel src n s <> Fault) /\
  (forall fuel src n s s',
      buffer_inv (buf s) ->
      0 <= n <= INT_MAX -> pos (buf s) + n <= length (buf s) ->
      write_bytes fuel src n s = Ok tt s' ->
      heap s' = heap s /\ length (buf s') = length (buf s)) /\
  (forall s vec, views (buf s) vec -> read_byte s <> Fault) /\
  (forall s n,
      buffer_inv (buf s) -> 0 <= n <= INT_MAX -> read_bytes n s <> Fault).
Proof.
  split; [| split; [| split; [| split]]].
  - intros fuel c s Hinv Hroom.
    rewrite write_byte_eq by assumption. unfold bind.
    destruct (expand_until fuel _ s) as [[] s1 | | |] eqn:Hloop;
      try discriminate.
    + destruct (expand_until_ok _ _ _ _ Hinv Hloop)
        as (Hinv1 & (Hp & _) & Hfit).
      rewrite store_byte_in_bounds by (assumption || lia). discriminate.
    + unfold expand_until in Hloop.
      destruct Hroom as [Hlt | [Hcap Hmem]].
      * rewrite expand_while_eq in Hloop.
        destruct (Z.gtb_spec (pos (buf s) + 1) (length (buf s)));
          [lia | discriminate].
      * apply expand_while_no_fault in Hloop; [contradiction | | assumption].
        split; assumption.
  - intros fuel src n s Hinv Hn Hsrc Hroom.
    rewrite write_bytes_eq by (assumption || (unfold is_int; lia)).
    unfold bind.
    destruct (expand_until fuel _ s) as [[] s1 | | |] eqn:Hloop;
      try discriminate.
    + destruct (expand_until_ok _ _ _ _ Hinv Hloop)
        as (Hinv1 & (Hp & _) & Hfit).
      rewrite store_bytes_in_bounds by (assumption || lia). discriminate.
    + unfold expand_until in Hloop.
      destruct Hroom as [Hfit | [Hcap Hmem]].
      * rewrite expand_while_eq in Hloop.
        destruct (Z.gtb_spec (pos (buf s) + n) (length (buf s)));
          [lia | discriminate].
      * apply expand_while_no_fault in Hloop; [contradiction | | assumption].
        split; assumption.
  - intros fuel src n s s' Hinv Hn Hfit.
    rewrite write_bytes_eq by (assumption || (unfold is_int; lia)).
    unfold bind, expand_until. rewrite expand_while_eq.
    destruct (Z.gtb_spec (pos (buf s) + n) (length (buf s))); [lia |].
    unfold store_bytes, bind, get.
    destruct (memcpy_to _ _ _ _); [| discriminate].
    cbn [put]. intros [= <-]. split; reflexivity.
  - intros s vec Hv. pose proof Hv as [(Hpos & _) _].
    destruct (Z.lt_ge_cases (pos (buf s)) (length (buf s))) as [Hlt | Hge].
    + destruct (read_byte_next s vec Hv Hlt) as (b & _ & ->). discriminate.
    + rewrite read_byte_underrun by assumption. discriminate.
  - intros s n Hinv Hn.
    destruct (Z.le_gt_cases (pos (buf s) + n) (length (buf s)))
      as [Hfit | Hover].
    + rewrite read_bytes_in_bounds by assumption. discriminate.
    + rewrite read_bytes_underrun by (assumption || (unfold is_int; lia)).
      discriminate.
Qed.

Lemma callbacks_stay_in_bounds_witness :
  write_bytes 64 ["d"; "e"; "f"]%byte 3 Example.abc <> Fault /\
  write_byte 64 100 Example.abc <> Fault /\
  read_bytes 9 Example.wxyz <> Fault.
Proof.
  assert (Hinv : buffer_inv (buf Example.abc))
    by (unfold buffer_inv, R_XLEN_T_MAX; cbn; lia).
  split; [| split].
  - apply (proj1 (proj2 callbacks_stay_in_bounds)).
    + exact Hinv.
    + unfold INT_MAX. lia.
    + cbn. lia.
    + right. split; [cbn; lia | constructor].
  - apply (proj1 callbacks_stay_in_bounds).
    + exact Hinv.
    + left. cbn. lia.
  - apply (proj2 (proj2 (proj2 (proj2 callbacks_stay_in_bounds)))).
    + unfold buffer_inv, R_XLEN_T_MAX. cbn. lia.
    + unfold INT_MAX. lia.
Defined.

(** ** Negative lengths *)

(** X5. Neither bulk callback checks the sign of its length. On a
    buffer that satisfies the invariant a negative [int] passes the
    capacity test of [write_bytes] without any growth and the underrun
    test of [read_bytes], and reaches [memcpy] as a size of at least
    2^63 bytes: the call is undefined, it raises no error. *)
Theorem negative_length_is_undefined
    (fuel : nat) (src : list byte) (n : Z) (s : state) :
  buffer_inv (buf s) -> is_int n -> n < 0 ->
  write_bytes fuel src n s = Fault /\ read_bytes n s = Fault.
Proof.
  intros Hinv Hn Hneg. pose proof Hinv as (Hpos & Hmax & Hdata).
  split.
  - rewrite write_bytes_eq by assumption.
    unfold bind, expand_until. rewrite expand_while_eq.
    destruct (Z.gtb_spec (pos (buf s) + n) (length (buf s))); [lia |].
    unfold store_bytes, bind, get.
    destruct (memcpy_to _ _ _ _) as [d |] eqn:Hcpy; [| reflexivity].
    apply memcpy_to_Some in Hcpy as (_ & _ & Hfit & _).
    pose proof (size_of_int_negative n).
    unfold is_int, INT_MAX, R_XLEN_T_MAX in *. lia.
  - apply read_bytes_negative; (assumption || lia).
Qed.

Lemma negative_length_is_undefined_witness :
  write_bytes 64 ["d"]%byte (-1) Example.abc = Fault /\
  read_bytes (-1) Example.abc = Fault.
Proof.
  apply (negative_length_is_undefined 64 ["d"]%byte (-1) Example.abc).
  - unfold buffer_inv, R_XLEN_T_MAX. cbn. lia.
  - unfold is_int, INT_MAX. lia.
  - lia.
Defined.

(** ** The growth loops end *)

(** X6. From a buffer with a positive capacity the [while] loops of
    [write_byte] and [write_bytes] end within 53 rounds, whatever is
    asked for: with fuel for 53 rounds neither callback stops for want
    of fuel, and more fuel changes nothing. *)
Theorem write_loops_end
    (f1 f2 : nat) (c : Z) (src : list byte) (n : Z) (s : state) :
  growable (buf s) -> (53 <= f1)%nat -> (53 <= f2)%nat ->
  write_byte f1 c s <> OutOfFuel /\
  write_bytes f1 src n s <> OutOfFuel /\
  write_byte f1 c s = write_byte f2 c s /\
  write_bytes f1 src n s = write_bytes f2 src n s.
Proof.
  intros Hg H1 H2. pose proof (doublings_left_le _ Hg) as Hleft.
  split; [now apply write_byte_terminates |].
  split; [now apply write_bytes_terminates |].
  split.
  - unfold write_byte, bind.
    rewrite (expand_while_fuel f1 f2) by (assumption || lia). reflexivity.
  - unfold write_bytes, bind.
    rewrite (expand_while_fuel f1 f2) by (assumption || lia). reflexivity.
Qed.

Lemma write_loops_end_witness :
  write_bytes 53 (replicate 40 "q"%byte) 40 Example.empty4 <> OutOfFuel /\
  write_bytes 53 (replicate 40 "q"%byte) 40 Example.empty4
  = write_bytes 64 (replicate 40 "q"%byte) 40 Example.empty4.
Proof.
  assert (Hg : growable (buf Example.empty4))
    by (unfold growable, buffer_inv, R_XLEN_T_MAX; cbn; lia).
  assert (H53 : (53 <= 53)%nat) by lia.
  assert (H64 : (53 <= 64)%nat) by lia.
  pose proof (write_loops_end 53 64 0 (replicate 40 "q"%byte) 40
                Example.empty4 Hg H53 H64) as (_ & Hend & _ & Hsame).
  split; [exact Hend | exact Hsame].
Defined.

(** ** Appends past the limit of R *)

Lemma expand_until_past_limit (fuel : nat) (need : Z) (s : state) :
  growable (buf s) -> plentiful (heap s) ->
  need > R_XLEN_T_MAX ->
  (doublings_left (buf s) <= fuel)%nat ->
  exists s',
    expand_until fuel need s = Raise CapacityExceeded s' /\
    live (heap s') = live (heap s) /\
    committed (buf s') = committed (buf s).
Proof.
  unfold expand_until.
  revert s. induction fuel as [| fuel IH]; intros s Hg Hmem Hneed Hfuel;
    pose proof (doublings_left_pos _ Hg) as Hleft; [lia |].
  pose proof Hg as [Hinv Hcap]. pose proof Hinv as (Hpos & Hmax & Hdata).
  rewrite expand_while_eq.
  destruct (Z.gtb_spec need (length (buf s))); [| lia].
  unfold bind. expand_cases s Hinv.
  - eexists. split; [reflexivity |]. split; reflexivity.
  - assert (Hdbl : 2 * length (buf s) <= R_XLEN_T_MAX) by lia.
    destruct (IH (doubled s)) as (s' & Hloop & Hlive & Hc).
    + now apply doubled_growable.
    + unfold doubled. cbn [heap]. now apply plentiful_tl.
    + assumption.
    + rewrite doublings_left_doubled by assumption. lia.
    + exists s'. split; [exact Hloop |]. split; [exact Hlive |].
      rewrite Hc. apply extends_committed; [assumption |].
      apply doubled_extends. lia.
  - rewrite plentiful_hd in * by assumption. discriminate.
  - lia.
Qed.

(** X7. An append that would take the position past [R_XLEN_T_MAX]
    never returns, whatever the allocator does. When the allocator
    serves every request and the capacity is positive, it raises
    [CapacityExceeded], after doubling as far as the limit allows, with
    nothing stored and both blocks still allocated. *)
Theorem append_past_limit
    (fuel : nat) (src : list byte) (n : Z) (s : state) :
  buffer_inv (buf s) -> is_int n ->
  pos (buf s) + n > R_XLEN_T_MAX ->
  (forall s', write_bytes fuel src n s <> Ok tt s') /\
  (0 < length (buf s) -> plentiful (heap s) -> (53 <= fuel)%nat ->
   exists s',
     write_bytes fuel src n s = Raise CapacityExceeded s' /\
     live (heap s') = live (heap s) /\
     committed (buf s') = committed (buf s)).
Proof.
  intros Hinv Hn Hpast. split.
  - intros s' Hw.
    destruct (write_bytes_ok _ _ _ _ _ Hinv Hn Hw)
      as (s1 & _ & (_ & Hmax1 & _) & _ & Hfit & _). lia.
  - intros Hcap Hmem Hfuel.
    pose proof (doublings_left_le _ (conj Hinv Hcap)).
    destruct (expand_until_past_limit fuel (pos (buf s) + n) s)
      as (s' & Hloop & Hlive & Hc); try (assumption || lia).
    { split; assumption. }
    exists s'. rewrite write_bytes_eq by assumption.
    unfold bind. rewrite Hloop. auto.
Qed.

Lemma append_past_limit_witness :
  exists s',
    write_bytes 64 ["a"; "b"]%byte 2
      (mkstate
         (mkbuffer R_XLEN_T_MAX (R_XLEN_T_MAX - 1)
            (replicate (Z.to_nat R_XLEN_T_MAX) None))
         (mkallocator 2 []))
    = Raise CapacityExceeded s' /\
    live (heap s') = 2%nat.
Proof.
  assert (Hmax : 0 < R_XLEN_T_MAX) by reflexivity.
  destruct (proj2 (append_past_limit 64 ["a"; "b"]%byte 2
              (mkstate
                 (mkbuffer R_XLEN_T_MAX (R_XLEN_T_MAX - 1)
                    (replicate (Z.to_nat R_XLEN_T_MAX) None))
                 (mkallocator 2 [])) 
              ltac:(unfold buffer_inv; cbn [buf length pos data];
                    rewrite length_replicate, Z2Nat.id by lia; lia)
              ltac:(unfold is_int, INT_MAX; lia)
              ltac:(cbn [buf pos]; lia)))
    as (s' & Hw & Hlive & _).
  - exact Hmax.
  - constructor.
  - lia.
  - exists s'. split; [exact Hw | exact Hlive].
Defined.

(** ** What [pack_] returns *)

(** X8. Whatever [pack_] returns is a raw vector holding exactly the
    stream of its encoder's calls, in the order of the calls: the low
    eight bits of each [OutChar] argument and the first [n] bytes of each
    [OutBytes] source, nothing of the slack of the buffer. It is never
    longer than [R_XLEN_T_MAX], and by then both blocks of the buffer
    are freed. *)
Theorem pack_returns_emitted_stream
    (robject : Type) (R_Serialize : SEXP robject -> encoder)
    (fuel : nat) (robj r : SEXP robject) (h h' : allocator) :
  encoder_typed (R_Serialize robj) ->
  pack_ R_Serialize fuel robj h = Ok r h' ->
  exists bytes,
    r = RAWSXP bytes /\
    emitted (R_Serialize robj) = Some bytes /\
    Z.of_nat (List.length bytes) <= R_XLEN_T_MAX /\
    live h' = live h.
Proof.
  intros Hty Hpack.
  destruct (pack_ok R_Serialize fuel robj h r h' Hty Hpack)
    as (bytes & Hr & Hem & Hlen & Hlive).
  exists bytes. auto.
Qed.

Lemma pack_returns_emitted_stream_witness :
  exists bytes,
    @RAWSXP unit ["003"; "a"; "b"; "c"]%byte = RAWSXP bytes /\
    emitted (Toy.serialize (RAWSXP ["a"; "b"; "c"]%byte)) = Some bytes /\
    Z.of_nat (List.length bytes) <= R_XLEN_T_MAX /\
    live Toy.fresh = live Toy.fresh.
Proof.
  apply (pack_returns_emitted_stream unit Toy.serialize 64
           (RAWSXP ["a"; "b"; "c"]%byte) (RAWSXP ["003"; "a"; "b"; "c"]%byte)
           Toy.fresh Toy.fresh).
  - cbn. unfold is_int, INT_MAX. lia.
  - vm_compute. reflexivity.
Defined.

(** ** What [unpack_] does with its input *)

Lemma consume_app {A} (d : decoder A) (bytes extra : list byte) (a : A) :
  consume d bytes = Some a -> consume d (bytes ++ extra) = Some a.
Proof.
  revert bytes. induction d as [a0 | | k IH | n k IH]; intros bytes;
    cbn [consume]; auto.
  - destruct bytes as [| b rest]; [discriminate |]. cbn [app]. apply IH.
  - rewrite length_app.
    destruct (Z.leb_spec 0 n), (Z.leb_spec n INT_MAX),
      (Z.leb_spec n (Z.of_nat (List.length bytes)));
      cbn [andb]; try discriminate.
    destruct (Z.leb_spec n (Z.of_nat (List.length bytes + List.length extra)));
      [| lia].
    intros Hrest. rewrite take_app_le, drop_app_le by lia. now apply IH.
Qed.

(** X9. [unpack_] does not ask that its input be used up: when the
    decoder returns a value from [vec], [unpack_] returns that value
    from [vec] followed by any bytes, and frees its structure. *)
Theorem unpack_ignores_trailing_bytes
    (robject : Type) (R_Unserialize : decoder (SEXP robject))
    (vec extra : list byte) (v : SEXP robject) (h : allocator) :
  consume R_Unserialize vec = Some v ->
  Z.of_nat (List.length (vec ++ extra)) <= R_XLEN_T_MAX ->
  hd true (oracle h) = true ->
  unpack_ R_Unserialize (RAWSXP (vec ++ extra)) h
    = Ok v (mkallocator (live h) (tl (oracle h))) /\
  unpack_ R_Unserialize (RAWSXP vec) h
    = Ok v (mkallocator (live h) (tl (oracle h))).
Proof.
  intros Hcons Hlen Hserved. rewrite length_app in Hlen. split.
  - apply unpack_ok; [rewrite length_app; lia | assumption |].
    now apply consume_app.
  - apply unpack_ok; [lia | assumption | assumption].
Qed.

Lemma unpack_ignores_trailing_bytes_witness :
  unpack_ Toy.unserialize (RAWSXP (["002"; "h"; "i"] ++ ["!"; "?"])%byte)
    Toy.fresh
  = Ok (RAWSXP ["h"; "i"]%byte) Toy.fresh.
Proof.
  apply (unpack_ignores_trailing_bytes unit Toy.unserialize
           ["002"; "h"; "i"]%byte ["!"; "?"]%byte
           (RAWSXP ["h"; "i"]%byte) Toy.fresh).
  - reflexivity.
  - unfold R_XLEN_T_MAX. cbn. lia.
  - reflexivity.
Defined.

(** A decoder run over a reader ends as it ends on the ideal source. *)
Lemma run_decoder_ideal {A} (d : decoder A) (s : state) (vec : list byte) :
  views (buf s) vec -> decoder_typed d ->
  match decode_ideal d (drop (Z.to_nat (pos (buf s))) vec) with
  | IDone a => exists s', run_decoder d s = Ok a s' /\ heap s' = heap s
  | IUnderrun =>
      exists s', run_decoder d s = Raise BufferUnderrun s' /\ heap s' = heap s
  | IEngineError =>
      exists s',
        run_decoder d s = Raise EngineDecodingError s' /\ heap s' = heap s
  | IUndefined => run_decoder d s = Fault
  end.
Proof.
  revert s. induction d as [a0 | | k IH | n k IH]; intros s Hv Hty;
    cbn [decode_ideal run_decoder decoder_typed] in *.
  - exists s. auto.
  - exists s. auto.
  - pose proof Hv as [(Hpos & Hmax & Hdata) Hvec].
    rewrite Hvec, length_fmap in Hdata.
    destruct (drop _ vec) as [| b rest] eqn:Hdrop.
    + assert (Hend : length (buf s) <= pos (buf s)).
      { apply (f_equal (@List.length byte)) in Hdrop.
        rewrite length_drop in Hdrop. cbn in Hdrop. lia. }
      exists s. unfold bind. rewrite read_byte_underrun by assumption. auto.
    + assert (Hlt : pos (buf s) < length (buf s)).
      { apply (f_equal (@List.length byte)) in Hdrop.
        rewrite length_drop in Hdrop. cbn in Hdrop. lia. }
      destruct (read_byte_next s vec Hv Hlt) as (b' & Hb' & Hrd).
      assert (b' = b) as ->.
      { apply (f_equal (fun l => l !! 0%nat)) in Hdrop.
        rewrite lookup_drop, Nat.add_0_r, Hb' in Hdrop. now injection Hdrop. }
      unfold bind. rewrite Hrd.
      specialize (IH (int_of_uchar b) (set_pos (pos (buf s) + 1) s)).
      cbn [buf set_pos pos heap] in IH.
      replace (Z.to_nat (pos (buf s) + 1)) with (S (Z.to_nat (pos (buf s))))
        in IH by lia.
      replace (drop (S (Z.to_nat (pos (buf s)))) vec) with rest in IH.
      * apply IH; [| apply Hty, int_of_uchar_range].
        split; [| exact Hvec]. apply set_pos_inv; [apply Hv | lia].
      * change (S (Z.to_nat (pos (buf s))))
          with (1 + Z.to_nat (pos (buf s)))%nat.
        rewrite Nat.add_comm, <- drop_drop, Hdrop. reflexivity.
  - destruct Hty as [Hn Hty].
    pose proof Hv as [Hinv Hvec]. pose proof Hinv as (Hpos & Hmax & Hdata).
    rewrite Hvec, length_fmap in Hdata. rewrite length_drop.
    destruct (Z.ltb_spec n 0) as [Hneg | Hn0].
    + unfold bind. rewrite read_bytes_negative by (assumption || lia).
      reflexivity.
    + destruct (Z.gtb_spec n
                  (Z.of_nat (List.length vec - Z.to_nat (pos (buf s)))))
        as [Hover | Hfit].
      * exists s. unfold bind.
        rewrite read_bytes_underrun by (assumption || lia). auto.
      * unfold bind.
        rewrite read_bytes_in_bounds
          by (assumption || (unfold is_int in Hn; lia)).
        rewrite Hvec, <- fmap_drop, <- fmap_take, written_fmap_Some.
        specialize (IH (take (Z.to_nat n) (drop (Z.to_nat (pos (buf s))) vec))
                      (set_pos (pos (buf s) + n) s)).
        cbn [buf set_pos pos heap] in IH.
        replace (drop (Z.to_nat (pos (buf s) + n)) vec)
          with (drop (Z.to_nat n) (drop (Z.to_nat (pos (buf s))) vec)) in IH
          by (rewrite drop_drop; f_equal; lia).
        apply IH; [| apply Hty].
        split; [| exact Hvec]. apply set_pos_inv; [assumption | lia].
Qed.

(** X10. The outcome of [unpack_] is that of its decoder on an ideal
    source holding the input. Anything but a raw vector raises
    [InvalidInput] before any allocation. On a raw vector, if the
    allocation of the structure fails the call raises
    [AllocationFailure]; otherwise it returns the value the decoder
    builds, with the structure freed; it raises [BufferUnderrun] exactly
    when the decoder reads past the end of the input, and the decoder's
    own error when the decoder fails, in both cases with the structure
    still allocated; and it is undefined when the decoder passes a
    negative length. *)
Theorem unpack_outcome
    (robject : Type) (R_Unserialize : decoder (SEXP robject))
    (vec : list byte) (h : allocator) :
  decoder_typed R_Unserialize ->
  Z.of_nat (List.length vec) <= R_XLEN_T_MAX ->
  (forall o, unpack_ R_Unserialize (OTHERSXP o) h = Raise InvalidInput h) /\
  unpack_ R_Unserialize (RAWSXP vec) h =
    if hd true (oracle h) then
      match decode_ideal R_Unserialize vec with
      | IDone v => Ok v (mkallocator (live h) (tl (oracle h)))
      | IUnderrun =>
          Raise BufferUnderrun (mkallocator (S (live h)) (tl (oracle h)))
      | IEngineError =>
          Raise EngineDecodingError
            (mkallocator (S (live h)) (tl (oracle h)))
      | IUndefined => Fault
      end
    else Raise AllocationFailure (mkallocator (live h) (tl (oracle h))).
Proof.
  intros Hty Hlen. split; [reflexivity |].
  unfold unpack_, bind at 1, malloc, served.
  change (sizeof_buffer <? 2 ^ 63) with true. cbn [andb].
  destruct (hd true (oracle h)); [| reflexivity].
  unfold bind at 1, with_buffer. fold (reader_of vec).
  pose proof (run_decoder_ideal R_Unserialize
                (mkstate (reader_of vec)
                   (mkallocator (S (live h)) (tl (oracle h)))) vec
                (reader_of_views vec Hlen) Hty) as Hrun.
  cbn [buf reader_of pos heap] in Hrun.
  change (Z.to_nat 0) with 0%nat in Hrun. rewrite drop_0 in Hrun.
  destruct (decode_ideal R_Unserialize vec) as [v | | |].
  - destruct Hrun as (s' & -> & Hh). unfold bind, free. rewrite Hh.
    reflexivity.
  - destruct Hrun as (s' & -> & Hh). now rewrite Hh.
  - destruct Hrun as (s' & -> & Hh). now rewrite Hh.
  - rewrite Hrun. reflexivity.
Qed.

Lemma unpack_outcome_witness :
  unpack_ Toy.unserialize (RAWSXP ["003"; "a"; "b"]%byte) Toy.fresh
  = Raise BufferUnderrun (mkallocator 1 []).
Proof.
  assert (Hty : decoder_typed Toy.unserialize).
  { cbn. intros c Hc. split; [unfold is_int, INT_MAX; lia | auto]. }
  assert (Hlen : Z.of_nat (List.length ["003"; "a"; "b"]%byte)
                 <= R_XLEN_T_MAX)
    by (unfold R_XLEN_T_MAX; cbn; lia).
  exact (proj2 (unpack_outcome unit Toy.unserialize
                  ["003"; "a"; "b"]%byte Toy.fresh Hty Hlen)).
Defined.

(** ** What [init_buffer] returns *)

(** X11. [init_buffer] for an [int] size: when the first allocation
    fails it raises with nothing allocated; when the size is negative
    (it reaches [malloc] as a size of at least 2^63 bytes) or the second
    allocation fails, it raises with the structure still allocated;
    otherwise it returns a buffer of that capacity at position 0, with
    no byte written, and two more blocks are allocated. *)
Theorem init_buffer_outcome (nbytes : Z) (h : allocator) :
  is_int nbytes ->
  init_buffer nbytes h =
    if hd true (oracle h) then
      if (0 <=? nbytes) && hd true (tl (oracle h)) then
        Ok (mkbuffer nbytes 0 (replicate (Z.to_nat nbytes) None))
           (mkallocator (S (S (live h))) (tl (tl (oracle h))))
      else
        Raise AllocationFailure
          (mkallocator (S (live h)) (tl (tl (oracle h))))
    else
      Raise AllocationFailure (mkallocator (live h) (tl (oracle h))).
Proof.
  intros Hn. unfold init_buffer, bind, malloc, served.
  change (sizeof_buffer <? 2 ^ 63) with true. cbn [andb].
  destruct (hd true (oracle h)); [| reflexivity].
  cbn [oracle live].
  destruct (Z.leb_spec 0 nbytes) as [Hn0 | Hneg]; cbn [andb].
  - rewrite size_of_int_small by (unfold is_int, INT_MAX in Hn; lia).
    destruct (Z.ltb_spec nbytes (2 ^ 63));
      [| unfold is_int, INT_MAX in Hn; lia].
    cbn [andb]. destruct (hd true (tl (oracle h))); reflexivity.
  - pose proof (size_of_int_negative nbytes) as Hbig.
    destruct (Z.ltb_spec (size_of_int nbytes) (2 ^ 63));
      [unfold is_int, INT_MAX in Hn; lia | reflexivity].
Qed.

Lemma init_buffer_outcome_witness :
  init_buffer (-1) (mkallocator 0 [])
  = Raise AllocationFailure (mkallocator 1 []).
Proof.
  assert (Hn : is_int (-1)) by (unfold is_int, INT_MAX; lia).
  exact (init_buffer_outcome (-1) (mkallocator 0 []) Hn).
Defined.

(** ** What [pack_] leaves allocated on an error *)

Lemma expand_while_raise
    (fuel : nat) (cond : buffer -> bool) (s s' : state) (e : error) :
  buffer_inv (buf s) ->
  expand_while fuel cond s = Raise e s' ->
  e = CapacityExceeded /\ live (heap s') = live (heap s).
Proof.
  revert s. induction fuel as [| fuel IH]; intros s Hinv;
    rewrite expand_while_eq; destruct (cond (buf s)); try discriminate.
  unfold bind. expand_cases s Hinv; try discriminate.
  - intros [= <- <-]. auto.
  - intros Hloop.
    destruct (IH (doubled s)) as [He Hl];
      [apply doubled_inv; [assumption | lia] | exact Hloop |].
    split; [exact He | exact Hl].
Qed.

Lemma run_encoder_raise
    (fuel : nat) (e : encoder) (s s' : state) (err : error) :
  buffer_inv (buf s) -> encoder_typed e ->
  run_encoder fuel e s = Raise err s' ->
  (err = CapacityExceeded \/ err = EngineEncodingError) /\
  live (heap s') = live (heap s).
Proof.
  revert s. induction e as [| | c k IH | src n k IH]; intros s Hinv Hty;
    cbn [run_encoder encoder_typed] in *.
  - discriminate.
  - intros [= <- <-]. auto.
  - unfold bind.
    destruct (write_byte fuel c s) as [[] s1 | e1 s1 | |] eqn:Hw;
      try discriminate.
    + destruct (write_byte_appends _ _ _ _ Hinv Hw) as (Hinv1 & _ & _ & _ & Hl).
      intros Hrun. rewrite <- Hl. now apply IH.
    + intros [= <- <-]. unfold write_byte, bind in Hw.
      destruct (expand_while fuel _ s) as [[] s2 | e2 s2 | |] eqn:Hloop;
        try discriminate.
      * unfold store_byte, bind, get in Hw. now destruct (_ && _).
      * injection Hw as <- <-.
        destruct (expand_while_raise _ _ _ _ _ Hinv Hloop) as [-> ?]; auto.
  - destruct Hty as [Hn Hty]. unfold bind.
    destruct (write_bytes fuel src n s) as [[] s1 | e1 s1 | |] eqn:Hw;
      try discriminate.
    + destruct (write_bytes_appends _ _ _ _ _ Hinv Hn Hw)
        as (_ & Hinv1 & _ & _ & _ & Hl).
      intros Hrun. rewrite <- Hl. now apply IH.
    + intros [= <- <-]. unfold write_bytes, bind in Hw.
      destruct (expand_while fuel _ s) as [[] s2 | e2 s2 | |] eqn:Hloop;
        try discriminate.
      * unfold store_bytes, bind, get in Hw.
        now destruct (memcpy_to _ _ _ _).
      * injection Hw as <- <-.
        destruct (expand_while_raise _ _ _ _ _ Hinv Hloop) as [-> ?]; auto.
Qed.

(** X12. When [pack_] raises, the error and what stays allocated go
    together: no raise of [pack_] frees what the call has allocated.
    [AllocationFailure] comes from the first [malloc] of [init_buffer],
    with nothing of the call allocated, from its second [malloc], with
    the buffer structure left allocated, or from [allocVector] once
    the encoder has returned, with the structure and the data block
    both left allocated. [CapacityExceeded] and the encoder's own error
    leave both blocks allocated as well. [pack_] raises no other error;
    a failure of [realloc] is not among its raises. *)
Theorem pack_error_accounting
    (robject : Type) (R_Serialize : SEXP robject -> encoder)
    (fuel : nat) (robj : SEXP robject) (h h' : allocator) (e : error) :
  encoder_typed (R_Serialize robj) ->
  pack_ R_Serialize fuel robj h = Raise e h' ->
  (e = AllocationFailure /\ hd true (oracle h) = false /\
   live h' = live h) \/
  (e = AllocationFailure /\ hd true (oracle h) = true /\
   hd true (tl (oracle h)) = false /\ live h' = S (live h)) \/
  ((e = AllocationFailure \/ e = CapacityExceeded \/
    e = EngineEncodingError) /\
   hd true (oracle h) = true /\ hd true (tl (oracle h)) = true /\
   live h' = S (S (live h))).
Proof.
  intros Hty.
  assert (Hint : is_int 16384) by (unfold is_int, INT_MAX; lia).
  unfold pack_, bind at 1.
  rewrite (init_buffer_outcome 16384 h Hint).
  destruct (hd true (oracle h)) eqn:Hfirst.
  - change (0 <=? 16384) with true. cbn [andb].
    destruct (hd true (tl (oracle h))) eqn:Hsecond.
    + set (b := mkbuffer 16384 0 (replicate (Z.to_nat 16384) None)).
      set (h1 := mkallocator (S (S (live h))) (tl (tl (oracle h)))).
      assert (Hinv : buffer_inv (buf (mkstate b h1))).
      { unfold buffer_inv, R_XLEN_T_MAX. cbn [buf b length pos data].
        rewrite length_replicate. lia. }
      unfold bind at 1, with_buffer.
      destruct (run_encoder fuel (R_Serialize robj) (mkstate b h1))
        as [[] s' | e2 s' | |] eqn:Hrun; try discriminate.
      * destruct (run_encoder_ok _ _ (mkstate b h1) _ Hinv Hty Hrun)
          as (bytes & _ & Hinv' & _ & _ & _ & Hlive').
        cbn [snd buf heap] in *.
        pose proof Hinv' as (Hpos' & Hmax' & Hdata').
        unfold bind at 1. rewrite allocVector_spec by lia.
        destruct (hd true (oracle (heap s'))).
        -- destruct (memcpy_from _ _ _); [| discriminate].
           destruct (written _); [| discriminate].
           unfold bind, free. cbn [live].
           destruct (live (heap s')) as [| [| n]]; discriminate.
        -- intros [= <- <-]. right. right. cbn [live].
           split; [auto |]. split; [reflexivity |].
           split; [reflexivity | exact Hlive'].
      * intros [= <- <-].
        destruct (run_encoder_raise fuel _ (mkstate b h1) s' e2 Hinv Hty Hrun)
          as [He Hl]; cbn [heap h1 live] in Hl.
        right. right. split; [tauto |]. split; [reflexivity |].
        split; [reflexivity | exact Hl].
    + intros [= <- <-]. right. left. cbn [live]. auto.
  - intros [= <- <-]. left. cbn [live]. auto.
Qed.

Lemma pack_error_accounting_witness :
  pack_ Toy.serialize 64 (RAWSXP ["a"; "b"; "c"]%byte)
    (mkallocator 0 [true; true; false])
  = Raise AllocationFailure (mkallocator 2 []) /\
  exists e h',
    pack_ Toy.serialize 64 (RAWSXP ["a"; "b"; "c"]%byte)
      (mkallocator 0 [true; false]) = Raise e h' /\
    e = AllocationFailure /\ live h' = 1%nat.
Proof.
  split; [vm_compute; reflexivity |].
  assert (Hty : encoder_typed
                  (Toy.serialize (@RAWSXP unit ["a"; "b"; "c"]%byte)))
    by (cbn; unfold is_int, INT_MAX; lia).
  assert (Hrun : pack_ Toy.serialize 64 (@RAWSXP unit ["a"; "b"; "c"]%byte)
                   (mkallocator 0 [true; false])
                 = Raise AllocationFailure (mkallocator 1 []))
    by (vm_compute; reflexivity).
  pose proof (pack_error_accounting unit Toy.serialize 64
                (RAWSXP ["a"; "b"; "c"]%byte)
                (mkallocator 0 [true; false])
                (mkallocator 1 []) AllocationFailure Hty Hrun)
    as [(_ & Hf & _) | [(He & _ & _ & Hl) | (_ & _ & Hs & _)]].
  - discriminate Hf.
  - do 2 eexists. split; [exact Hrun |]. split; [exact He | exact Hl].
  - discriminate Hs.
Defined.

(** ** Bulk appends compose *)

Lemma write_each_app (fuel : nat) (l1 l2 : list byte) (s : state) :
  write_each fuel (l1 ++ l2) s
  = (write_each fuel l1 ;; write_each fuel l2) s.
Proof.
  revert s. induction l1 as [| b l1 IH]; intros s; [reflexivity |].
  cbn [app write_each]. unfold bind at 1 2 3.
  destruct (write_byte fuel (int_of_uchar b) s) as [[] s1 | | |];
    try reflexivity.
  rewrite IH. reflexivity.
Qed.

Lemma same_outcome_sym {A} (r1 r2 : res state A) :
  same_outcome r1 r2 -> same_outcome r2 r1.
Proof. destruct r1, r2; cbn; try tauto; intros [-> ->]; auto. Qed.

Lemma same_outcome_bind_l {A B} (m1 m2 : M state A) (k : A -> M state B)
    (s : state) :
  same_outcome (m1 s) (m2 s) ->
  same_outcome (bind m1 k s) (bind m2 k s).
Proof.
  unfold bind. destruct (m1 s), (m2 s); cbn; try tauto.
  intros [-> ->]. apply same_outcome_refl.
Qed.

(** X13. From a buffer with a positive capacity, one bulk append of a
    run of bytes and two bulk appends of its two parts, cut anywhere,
    end alike: the same buffer and allocator on return, the same error
    on a raise. *)
Theorem write_bytes_app (fuel : nat) (l1 l2 : list byte) (s : state) :
  growable (buf s) -> (53 <= fuel)%nat ->
  Z.of_nat (List.length (l1 ++ l2)) <= INT_MAX ->
  same_outcome
    (write_bytes fuel (l1 ++ l2) (Z.of_nat (List.length (l1 ++ l2))) s)
    ((write_bytes fuel l1 (Z.of_nat (List.length l1)) ;;
      write_bytes fuel l2 (Z.of_nat (List.length l2))) s).
Proof.
  intros Hg Hfuel Hlen. pose proof Hlen as Hlen'.
  rewrite length_app in Hlen'.
  eapply same_outcome_trans; [now apply write_each_same |].
  rewrite write_each_app.
  eapply same_outcome_trans.
  - apply same_outcome_bind_l, same_outcome_sym, write_each_same;
      (assumption || lia).
  - apply same_outcome_bind. intros [] s1 Hw.
    apply same_outcome_sym, write_each_same; [| assumption | lia].
    destruct Hg as [Hinv Hcap].
    assert (Hn : is_int (Z.of_nat (List.length l1)))
      by (unfold is_int; lia).
    destruct (write_bytes_appends _ _ _ _ _ Hinv Hn Hw)
      as (_ & Hinv1 & _ & _ & Hle & _).
    split; [assumption | lia].
Qed.

Lemma write_bytes_app_witness :
  same_outcome
    (write_bytes 64 (["d"; "e"] ++ ["f"; "g"; "h"; "i"; "j"])%byte 7
       Example.abc)
    ((write_bytes 64 ["d"; "e"]%byte 2 ;;
      write_bytes 64 ["f"; "g"; "h"; "i"; "j"]%byte 5) Example.abc).
Proof.
  assert (Hg : growable (buf Example.abc))
    by (unfold growable, buffer_inv, R_XLEN_T_MAX; cbn; lia).
  assert (Hfuel : (53 <= 64)%nat) by lia.
  assert (Hlen : Z.of_nat (List.length
                   (["d"; "e"] ++ ["f"; "g"; "h"; "i"; "j"])%byte)
                 <= INT_MAX) by (unfold INT_MAX; cbn; lia).
  exact (write_bytes_app 64 ["d"; "e"]%byte ["f"; "g"; "h"; "i"; "j"]%byte
           Example.abc Hg Hfuel Hlen).
Defined.

(** ** A bulk write read back *)

(** X14. What [write_bytes] commits is what [read_bytes] returns: after
    a bulk append of [n] bytes, a [read_bytes] of [n] bytes with the
    cursor back at the old position returns the first [n] bytes of the
    source and leaves the state the append left. *)
Theorem bulk_write_read_back
    (fuel : nat) (src : list byte) (n : Z) (s s' : state) :
  buffer_inv (buf s) -> is_int n ->
  write_bytes fuel src n s = Ok tt s' ->
  read_bytes n (set_pos (pos (buf s)) s')
    = Ok (Some <$> take (Z.to_nat n) src) s'.
Proof.
  intros Hinv Hn Hw.
  destruct (write_bytes_ok _ _ _ _ _ Hinv Hn Hw)
    as (s1 & Hext & Hinv1 & Hsrc & Hfit & ->).
  pose proof Hinv as (Hpos & _ & _).
  pose proof Hinv1 as (_ & Hmax1 & Hdata1).
  set (d := take (Z.to_nat (pos (buf s))) (data (buf s1))
            ++ (Some <$> take (Z.to_nat n) src)
            ++ drop (Z.to_nat (pos (buf s) + n)) (data (buf s1))).
  assert (Htake : List.length (take (Z.to_nat n) src) = Z.to_nat n)
    by (rewrite length_take; lia).
  assert (Hhead : List.length (take (Z.to_nat (pos (buf s))) (data (buf s1)))
                  = Z.to_nat (pos (buf s)))
    by (rewrite length_take; lia).
  assert (Hd : Z.of_nat (List.length d) = length (buf s1)).
  { unfold d. rewrite !length_app, length_fmap, length_drop, Hhead, Htake.
    lia. }
  rewrite read_bytes_in_bounds.
  - cbn [buf set_pos set_data pos data length heap]. fold d. f_equal.
    unfold d. rewrite drop_app_length' by (symmetry; exact Hhead).
    rewrite take_app_length'; [reflexivity |].
    rewrite length_fmap. symmetry. exact Htake.
  - unfold buffer_inv. cbn [buf set_pos set_data pos data length]. fold d.
    lia.
  - unfold is_int in Hn. lia.
  - cbn [buf set_pos set_data pos length]. lia.
Qed.

Lemma bulk_write_read_back_witness :
  exists s',
    write_bytes 64 ["d"; "e"; "f"]%byte 3 Example.abc = Ok tt s' /\
    read_bytes 3 (set_pos 3 s') = Ok [Some "d"; Some "e"; Some "f"]%byte s'.
Proof.
  eexists. split; [vm_compute; reflexivity |].
  apply (bulk_write_read_back 64 ["d"; "e"; "f"]%byte 3 Example.abc).
  - unfold buffer_inv, R_XLEN_T_MAX. cbn. lia.
  - unfold is_int, INT_MAX. lia.
  - vm_compute. reflexivity.
Defined.
